(** * separation-songs: the stem-separation pipeline of [main.py]

    A shallow embedding of the pipeline functions of [src/main.py]
    ([src/--main.py] carries the same functions with docstrings):
    [slugify_basename], [find_stems], [run_demucs], [zip_dir],
    [separate_core] and [safe_rmtree], and of their two callers,
    [api_separate] and [gradio_workflow], together with the parts of the
    Python library they rest on ([str], [re], [pathlib], [shutil],
    [tempfile], [subprocess]).

    Conventions of the model:
    - a Python [str] is the list of its Unicode code points ([list N]);
    - a [Path] is the list of its components below the root (POSIX flavour,
      no symbolic links, no permissions);
    - the file system is a tree whose directories list their entries in
      listing ([os.scandir]) order;
    - code that touches the file system or spawns a process runs in a state
      and exception monad over a [world]; a raised exception keeps the
      changes made before it. *)

From Stdlib Require Import String Ascii.
From Stdlib Require Import List NArith ZArith Bool Arith Lia.
From Stdlib Require Import Sorting.Sorted Sorting.Permutation.
Import ListNotations.

(** ** Python strings *)

Module PyStr.

Definition str := list N.

(** An ASCII literal as a Python string. *)
Definition u (s : string) : str := map N_of_ascii (list_ascii_of_string s).

Fixpoint eqb (a b : str) : bool :=
  match a, b with
  | [], [] => true
  | x :: a', y :: b' => N.eqb x y && eqb a' b'
  | _, _ => false
  end.

(** [a < b] on strings: lexicographic on code points, a proper prefix first. *)
Fixpoint ltb (a b : str) : bool :=
  match a, b with
  | _, [] => false
  | [], _ :: _ => true
  | x :: a', y :: b' => N.ltb x y || (N.eqb x y && ltb a' b')
  end.

Fixpoint startswith (p s : str) : bool :=
  match p, s with
  | [], _ => true
  | x :: p', y :: s' => N.eqb x y && startswith p' s'
  | _ :: _, [] => false
  end.

(** [sub in s]. *)
Fixpoint contains (sub s : str) : bool :=
  startswith sub s ||
  match s with
  | [] => false
  | _ :: s' => contains sub s'
  end.

Definition endswith (suffix s : str) : bool :=
  startswith (rev suffix) (rev s).

(** [s.rfind(c)] for a one-character [c]: [None] stands for [-1]. *)
Fixpoint rfind (c : N) (s : str) : option nat :=
  match s with
  | [] => None
  | x :: s' =>
      match rfind c s' with
      | Some i => Some (S i)
      | None => if N.eqb x c then Some 0 else None
      end
  end.

(** [s.split(sep)] for a one-character separator. *)
Fixpoint split (sep : N) (s : str) : list str :=
  match s with
  | [] => [[]]
  | c :: s' =>
      if N.eqb c sep then [] :: split sep s'
      else match split sep s' with
           | h :: t => (c :: h) :: t
           | [] => [[c]]
           end
  end.

Fixpoint lstrip (chars : N -> bool) (s : str) : str :=
  match s with
  | [] => []
  | c :: s' => if chars c then lstrip chars s' else s
  end.

Definition rstrip (chars : N -> bool) (s : str) : str :=
  rev (lstrip chars (rev s)).

(** [s.strip(chars)]. *)
Definition strip (chars : N -> bool) (s : str) : str :=
  rstrip chars (lstrip chars s).

(** [s[-n:]]. *)
Definition last_n (n : nat) (s : str) : str := skipn (length s - n) s.

Fixpoint join (sep : str) (l : list str) : str :=
  match l with
  | [] => []
  | [x] => x
  | x :: l' => x ++ sep ++ join sep l'
  end.

End PyStr.
Import PyStr.

(** ** The Unicode character database

    [str.lower], [str.strip] and the [re] classes [\w] and [\s] consult the
    Unicode database.  Basic Latin and Latin-1 (U+0000..U+00FF) are
    tabulated here; the database above U+00FF is a parameter, so that every
    statement below holds for every Python string.  Lowercasing a code point
    may look at its context (the final sigma rule) and may yield several
    code points. *)

Record ucd := {
  hi_alnum : N -> bool;
  hi_space : N -> bool;
  hi_lower : str -> N -> str -> str
}.

Module Unicode.

Definition in_range (lo hi c : N) : bool := N.leb lo c && N.leb c hi.

Definition latin1_alnum (c : N) : bool :=
  in_range 48 57 c || in_range 65 90 c || in_range 97 122 c ||
  N.eqb c 170 || in_range 178 179 c || N.eqb c 181 || in_range 185 186 c ||
  in_range 188 190 c || in_range 192 214 c || in_range 216 246 c ||
  in_range 248 255 c.

Definition latin1_space (c : N) : bool :=
  in_range 9 13 c || in_range 28 32 c || N.eqb c 133 || N.eqb c 160.

Definition latin1_lower (c : N) : N :=
  if in_range 65 90 c || in_range 192 214 c || in_range 216 222 c
  then (c + 32)%N else c.

Section WithUCD.
Variable U : ucd.

(** [ch.isalnum()]. *)
Definition isalnum (c : N) : bool :=
  if N.ltb c 256 then latin1_alnum c else hi_alnum U c.

(** [ch.isspace()], the class [\s] of [re] on [str] patterns. *)
Definition isspace (c : N) : bool :=
  if N.ltb c 256 then latin1_space c else hi_space U c.

(** The class [\w] of [re] on [str] patterns. *)
Definition isword (c : N) : bool := isalnum c || N.eqb c 95.

Fixpoint lower_from (before : str) (s : str) : str :=
  match s with
  | [] => []
  | c :: s' =>
      (if N.ltb c 256 then [latin1_lower c] else hi_lower U before c s')
      ++ lower_from (before ++ [c]) s'
  end.

(** [s.lower()]. *)
Definition lower (s : str) : str := lower_from [] s.

End WithUCD.

(** A database with nothing above Latin-1, for running the model on Latin-1
    strings. *)
Definition latin1_only : ucd :=
  {| hi_alnum := fun _ => false;
     hi_space := fun _ => false;
     hi_lower := fun _ c _ => [c] |}.

End Unicode.

(** ** Regular expressions used by the program *)

Module PyRe.

(** [re.sub(r"[^...]", "", s)] for a negated one-character class: the
    characters outside [cls] are dropped. *)
Definition sub_drop_outside (cls : N -> bool) (s : str) : str := filter cls s.

(** [re.sub(r"[...]+", repl, s)]: every maximal run of characters of [cls]
    is replaced by [repl]. *)
Fixpoint sub_runs_from (cls : N -> bool) (repl : str) (in_run : bool) (s : str) : str :=
  match s with
  | [] => []
  | c :: s' =>
      if cls c
      then (if in_run then [] else repl) ++ sub_runs_from cls repl true s'
      else c :: sub_runs_from cls repl false s'
  end.

Definition sub_runs (cls : N -> bool) (repl : str) (s : str) : str :=
  sub_runs_from cls repl false s.

End PyRe.

(** ** Paths *)

Module PyPath.

Definition path := list str.

Definition slash : N := 47.
Definition dot : N := 46.
Definition hyphen : N := 45.
Definition underscore : N := 95.

(** The parts of [PurePosixPath(s)] below the root: empty components and
    ["."] are dropped. *)
Definition parse (s : str) : path :=
  filter (fun x => negb (eqb x []) && negb (eqb x [dot])) (split slash s).

(** [p.name]. *)
Definition name (p : path) : str := last p [].

(** The stem of a final component: the name without its last suffix
    (the rule of [pathlib] up to Python 3.13). *)
Definition stem_of (nm : str) : str :=
  match rfind dot nm with
  | Some i => if Nat.ltb 0 i && Nat.ltb i (length nm - 1) then firstn i nm else nm
  | None => nm
  end.

(** [p.stem]. *)
Definition stem (p : path) : str := stem_of (name p).

(** [p.parent]. *)
Definition parent (p : path) : path := removelast p.

(** [p / c] for a single component [c]. *)
Definition child (p : path) (c : str) : path := p ++ [c].

(** [p / s]: the string [s] is parsed; an absolute [s] replaces [p]. *)
Definition joinpath (p : path) (s : str) : path :=
  if startswith [slash] s then parse s else p ++ parse s.

(** [str(p)]. *)
Definition to_str (p : path) : str :=
  match p with
  | [] => [slash]
  | _ => concat (map (fun c => slash :: c) p)
  end.

Fixpoint path_eqb (a b : path) : bool :=
  match a, b with
  | [], [] => true
  | x :: a', y :: b' => eqb x y && path_eqb a' b'
  | _, _ => false
  end.

(** [a < b] on paths: the parts are compared as lists of strings. *)
Fixpoint path_ltb (a b : path) : bool :=
  match a, b with
  | _, [] => false
  | [], _ :: _ => true
  | x :: a', y :: b' => ltb x y || (eqb x y && path_ltb a' b')
  end.

Definition path_leb (a b : path) : bool := negb (path_ltb b a).

End PyPath.
Import PyPath.

(** ** Configuration *)

Definition DEMUCS_MODELS : list str :=
  [u "htdemucs"; u "htdemucs_ft"; u "mdx"; u "mdx_extra"].

Definition STEM_KEYS : list str := [u "vocals"; u "drums"; u "bass"; u "other"].

(** ** Input Normalizer *)

Section Slugify.
Variable U : ucd.

Definition keep_class (c : N) : bool :=
  Unicode.isword U c || Unicode.isspace U c || N.eqb c hyphen.

Definition sep_class (c : N) : bool :=
  N.eqb c hyphen || Unicode.isspace U c.

Definition trim_class (c : N) : bool :=
  N.eqb c hyphen || N.eqb c underscore.

Definition slugify_basename (name : str) (default : str) : str :=
  let base := stem (parse name) in
  let base := Unicode.lower U base in
  let base := PyRe.sub_drop_outside keep_class base in
  let base := strip trim_class (PyRe.sub_runs sep_class (u "-") base) in
  match base with
  | [] => default
  | _ => base
  end.

End Slugify.

(** ** The file system *)

Module FS.

#[local] Set Warnings "-register-all".

Inductive node :=
| File (data : list N)
| ZipFile (root : node)
| Dir (entries : list (str * node)).

Fixpoint assoc (k : str) (es : list (str * node)) : option node :=
  match es with
  | [] => None
  | (k', v) :: es' => if eqb k k' then Some v else assoc k es'
  end.

(** Sets the entry [k]: an existing entry keeps its place in the listing,
    a new one goes to the end. *)
Fixpoint put (k : str) (v : node) (es : list (str * node)) : list (str * node) :=
  match es with
  | [] => [(k, v)]
  | (k', v') :: es' => if eqb k k' then (k, v) :: es' else (k', v') :: put k v es'
  end.

Definition del (k : str) (es : list (str * node)) : list (str * node) :=
  filter (fun e => negb (eqb k (fst e))) es.

Fixpoint lookup (p : path) (n : node) : option node :=
  match p with
  | [] => Some n
  | c :: p' =>
      match n with
      | Dir es => match assoc c es with
                  | Some ch => lookup p' ch
                  | None => None
                  end
      | _ => None
      end
  end.

Definition exists_ (fs : node) (p : path) : bool :=
  match lookup p fs with Some _ => true | None => false end.

Definition is_dir (fs : node) (p : path) : bool :=
  match lookup p fs with Some (Dir _) => true | _ => false end.

(** Writes [v] at [p]; the parent of [p] has to be a directory. *)
Fixpoint set (p : path) (v : node) (n : node) : option node :=
  match p with
  | [] => Some v
  | c :: p' =>
      match n with
      | Dir es =>
          match (match p' with
                 | [] => Some v
                 | _ => match assoc c es with
                        | Some ch => set p' v ch
                        | None => None
                        end
                 end) with
          | Some ch' => Some (Dir (put c ch' es))
          | None => None
          end
      | _ => None
      end
  end.

(** Creates [p] and its missing parents; [None] when something that is not
    a directory is in the way. *)
Fixpoint mkdirs (p : path) (n : node) : option node :=
  match n with
  | Dir es =>
      match p with
      | [] => Some n
      | c :: p' =>
          match mkdirs p' (match assoc c es with Some ch => ch | None => Dir [] end) with
          | Some ch' => Some (Dir (put c ch' es))
          | None => None
          end
      end
  | _ => None
  end.

(** Removes the entry at [p] with everything below it. *)
Fixpoint remove (p : path) (n : node) : node :=
  match p with
  | [] => n
  | c :: p' =>
      match n with
      | Dir es =>
          match p' with
          | [] => Dir (del c es)
          | _ => match assoc c es with
                 | Some ch => Dir (put c (remove p' ch) es)
                 | None => n
                 end
          end
      | _ => n
      end
  end.

(** The names listed by [os.scandir(p)], in listing order. *)
Definition names (fs : node) (p : path) : option (list str) :=
  match lookup p fs with
  | Some (Dir es) => Some (map fst es)
  | _ => None
  end.

Definition is_wav (nm : str) : bool := endswith (u ".wav") nm.

(** [p.glob("*.wav")]: the entries of [p] whose name ends in [.wav], in
    listing order; nothing when [p] is not a directory. *)
Definition glob_wav (fs : node) (p : path) : list path :=
  match names fs p with
  | Some l => map (child p) (filter is_wav l)
  | None => []
  end.

(** The directories visited by a recursive pattern: [here] first, then the
    subdirectories depth first, in listing order. *)
Fixpoint walk (here : path) (n : node) {struct n} : list path :=
  here ::
  match n with
  | Dir es =>
      (fix go (es : list (str * node)) : list path :=
         match es with
         | [] => []
         | (nm, ch) :: es' =>
             match ch with
             | Dir _ => walk (here ++ [nm]) ch
             | _ => []
             end ++ go es'
         end) es
  | _ => []
  end.

(** [p.rglob("*.wav")]. *)
Definition rglob_wav (fs : node) (p : path) : list path :=
  match lookup p fs with
  | Some (Dir es) => flat_map (glob_wav fs) (walk p (Dir es))
  | _ => []
  end.

End FS.
Import FS.

(** ** Exceptions, events and the world *)

Inductive hint :=
| HintNoCpuFlag        (* "A flag --cpu não existe nessa versão. Use -d cpu/cuda." *)
| HintCudaUnavailable. (* "CUDA não disponível: instale PyTorch com CUDA ou use -d cpu." *)

Inductive detail :=
| StderrTail (tail : str)                 (* stderr[-2000:] *)
| ExitText (cmd : list str) (code : Z).   (* str(e) *)

Inductive msg :=
| MsgInvalidModel (model : str) (supported : list str)
| MsgFfmpegMissing
| MsgDemucsFailed (d : detail) (hints : list hint)
| MsgOutputMissing   (* "Saída do Demucs não encontrada. Verifique logs." *)
| MsgStemsMissing.   (* "Pastas/arquivos de stems não encontrados na saída do Demucs." *)

Inductive exn :=
| ValueError (m : msg)
| RuntimeError (m : msg)
| CalledProcessError (cmd : list str) (code : Z) (stderr : str)
| FileNotFoundError (p : path)
| NotADirectoryError (p : path)
| IsADirectoryError (p : path)
| FileExistsError (p : path)
| SameFileError (p : path)
| SpawnError (cmd : list str).   (* the OSError of a program that cannot be started *)

Inductive event :=
| EvWhich (prog : str)
| EvMkdtemp (p : path)
| EvMkdir (p : path)
| EvCopy (src dst : path)
| EvSpawn (cmd : list str)
| EvInspect (p : path)
| EvArchive (src zip : path)
| EvRmtree (p : path).

Inductive outcome :=
| Exited (code : Z) (stderr : str)
| NotStarted.

(** What the program sees of its host: the file system, the executables on
    the search path, the temporary directory and the names [mkdtemp] will
    try, and what a spawned command does to the file system.  [w_trace] is
    the log of the calls made so far. *)
Record world := {
  w_fs : node;
  w_which : str -> option path;
  w_tmpdir : path;
  w_rand : list str;
  w_exec : list str -> node -> outcome * node;
  w_trace : list event
}.

Definition with_fs (fs : node) (w : world) : world :=
  {| w_fs := fs; w_which := w_which w; w_tmpdir := w_tmpdir w;
     w_rand := w_rand w; w_exec := w_exec w; w_trace := w_trace w |}.

Definition with_rand (l : list str) (w : world) : world :=
  {| w_fs := w_fs w; w_which := w_which w; w_tmpdir := w_tmpdir w;
     w_rand := l; w_exec := w_exec w; w_trace := w_trace w |}.

Definition logged (ev : event) (w : world) : world :=
  {| w_fs := w_fs w; w_which := w_which w; w_tmpdir := w_tmpdir w;
     w_rand := w_rand w; w_exec := w_exec w; w_trace := w_trace w ++ [ev] |}.

(** ** The monad *)

Inductive result (A : Type) :=
| Ok (a : A)
| Raise (e : exn).
Arguments Ok {A} a.
Arguments Raise {A} e.

Definition M (A : Type) := world -> result A * world.

Definition ret {A} (a : A) : M A := fun w => (Ok a, w).

Definition raise {A} (e : exn) : M A := fun w => (Raise e, w).

Definition bind {A B} (m : M A) (k : A -> M B) : M B :=
  fun w => match m w with
           | (Ok a, w') => k a w'
           | (Raise e, w') => (Raise e, w')
           end.

(** [try: m  except ...: h e]. *)
Definition try_except {A} (m : M A) (h : exn -> M A) : M A :=
  fun w => match m w with
           | (Ok a, w') => (Ok a, w')
           | (Raise e, w') => h e w'
           end.

Declare Scope py_scope.
Delimit Scope py_scope with py.
Notation "x <- m ;; k" := (bind m (fun x => k))
  (at level 100, m at next level, right associativity) : py_scope.
Notation "m ;; k" := (bind m (fun _ => k))
  (at level 100, right associativity) : py_scope.
Open Scope py_scope.

(** ** Library calls *)

(** [shutil.which(prog)]. *)
Definition shutil_which (prog : str) : M (option path) :=
  fun w => (Ok (w_which w prog), logged (EvWhich prog) w).

Fixpoint mkdtemp_loop (dir : path) (prefix : str) (candidates : list str) : M path :=
  match candidates with
  | [] => raise (FileExistsError dir)
  | r :: rest =>
      fun w =>
        let file := child dir (prefix ++ r) in
        match lookup dir (w_fs w) with
        | Some (Dir es) =>
            match assoc (prefix ++ r) es with
            | Some _ => mkdtemp_loop dir prefix rest (with_rand rest w)
            | None =>
                match set file (Dir []) (w_fs w) with
                | Some fs' => (Ok file, logged (EvMkdtemp file) (with_fs fs' (with_rand rest w)))
                | None => (Raise (FileNotFoundError file), with_rand rest w)
                end
            end
        | Some _ => (Raise (NotADirectoryError file), with_rand rest w)
        | None => (Raise (FileNotFoundError file), with_rand rest w)
        end
  end.

(** [tempfile.mkdtemp(prefix=prefix)]: the candidate names are tried in turn
    until one is free. *)
Definition tempfile_mkdtemp (prefix : str) : M path :=
  fun w => mkdtemp_loop (w_tmpdir w) prefix (w_rand w) w.

(** [p.mkdir(parents=True, exist_ok=True)]. *)
Definition path_mkdir_p (p : path) : M unit :=
  fun w =>
    match mkdirs p (w_fs w) with
    | Some fs' => (Ok tt, logged (EvMkdir p) (with_fs fs' w))
    | None =>
        (Raise (if exists_ (w_fs w) p then FileExistsError p else NotADirectoryError p), w)
    end.

(** [shutil.copyfile(src, dst)]. *)
Definition shutil_copyfile (src dst : path) : M unit :=
  fun w =>
    if path_eqb src dst then (Raise (SameFileError src), w) else
    match lookup src (w_fs w) with
    | None => (Raise (FileNotFoundError src), w)
    | Some (Dir _) => (Raise (IsADirectoryError src), w)
    | Some content =>
        if is_dir (w_fs w) dst then (Raise (IsADirectoryError dst), w) else
        match set dst content (w_fs w) with
        | Some fs' => (Ok tt, logged (EvCopy src dst) (with_fs fs' w))
        | None => (Raise (FileNotFoundError dst), w)
        end
    end.

(** [subprocess.run(cmd, capture_output=True, text=True, check=True)]. *)
Definition subprocess_run (cmd : list str) : M unit :=
  fun w =>
    let w1 := logged (EvSpawn cmd) w in
    match w_exec w cmd (w_fs w) with
    | (Exited code err, fs') =>
        if Z.eqb code 0 then (Ok tt, with_fs fs' w1)
        else (Raise (CalledProcessError cmd code err), with_fs fs' w1)
    | (NotStarted, _) => (Raise (SpawnError cmd), w1)
    end.

(** [p.exists()]. *)
Definition path_exists (p : path) : M bool :=
  fun w => (Ok (exists_ (w_fs w) p), logged (EvInspect p) w).

(** [p.is_dir()]. *)
Definition path_is_dir (p : path) : M bool :=
  fun w => (Ok (is_dir (w_fs w) p), logged (EvInspect p) w).

(** [list(p.iterdir())]. *)
Definition path_iterdir (p : path) : M (list path) :=
  fun w =>
    match lookup p (w_fs w) with
    | Some (Dir es) => (Ok (map (child p) (map fst es)), logged (EvInspect p) w)
    | Some _ => (Raise (NotADirectoryError p), logged (EvInspect p) w)
    | None => (Raise (FileNotFoundError p), logged (EvInspect p) w)
    end.

(** [list(p.glob("*.wav"))]. *)
Definition path_glob_wav (p : path) : M (list path) :=
  fun w => (Ok (glob_wav (w_fs w) p), logged (EvInspect p) w).

(** [p.rglob("*.wav")]. *)
Definition path_rglob_wav (p : path) : M (list path) :=
  fun w => (Ok (rglob_wav (w_fs w) p), logged (EvInspect p) w).

(** The archive written for the base name [base]: [str(base) + ".zip"]. *)
Definition archive_path (base : path) : path :=
  match base with
  | [] => [u ".zip"]
  | _ => removelast base ++ [last base [] ++ u ".zip"]
  end.

(** [Path(shutil.make_archive(str(base), "zip", root_dir=str(root_dir)))]. *)
Definition shutil_make_archive (base root_dir : path) : M path :=
  fun w =>
    match lookup root_dir (w_fs w) with
    | None => (Raise (FileNotFoundError root_dir), w)
    | Some (Dir es) =>
        let zip := archive_path base in
        match mkdirs (removelast zip) (w_fs w) with
        | None => (Raise (NotADirectoryError (removelast zip)), w)
        | Some fs1 =>
            match set zip (ZipFile (Dir es)) fs1 with
            | Some fs2 => (Ok zip, logged (EvArchive root_dir zip) (with_fs fs2 w))
            | None => (Raise (FileNotFoundError zip), w)
            end
        end
    | Some _ => (Raise (NotADirectoryError root_dir), w)
    end.

(** [shutil.rmtree(p, ignore_errors=ignore_errors)]. *)
Definition shutil_rmtree (p : path) (ignore_errors : bool) : M unit :=
  fun w =>
    let w1 := logged (EvRmtree p) w in
    match lookup p (w_fs w) with
    | Some (Dir _) => (Ok tt, with_fs (remove p (w_fs w)) w1)
    | Some _ => if ignore_errors then (Ok tt, w1) else (Raise (NotADirectoryError p), w1)
    | None => if ignore_errors then (Ok tt, w1) else (Raise (FileNotFoundError p), w1)
    end.

(** ** The pipeline of [main.py] *)

(** The value of [paths]: the stem keys in insertion order, each with the
    printed path of its file or [None]. *)
Definition dict := list (str * option str).

Fixpoint dict_set (k : str) (v : option str) (d : dict) : dict :=
  match d with
  | [] => [(k, v)]
  | (k', v') :: d' => if eqb k k' then (k, v) :: d' else (k', v') :: dict_set k v d'
  end.

Fixpoint dict_get (k : str) (d : dict) : option (option str) :=
  match d with
  | [] => None
  | (k', v) :: d' => if eqb k k' then Some v else dict_get k d'
  end.

(** Truth value of a dictionary value: [None] and the empty string are false. *)
Definition truthy (v : option str) : bool :=
  match v with
  | Some (_ :: _) => true
  | _ => false
  end.

Fixpoint insert_sorted (p : path) (l : list path) : list path :=
  match l with
  | [] => [p]
  | q :: l' => if path_ltb q p then q :: insert_sorted p l' else p :: l
  end.

(** [sorted(l)] on paths. *)
Definition sorted (l : list path) : list path := fold_right insert_sorted [] l.

(** [enumerate(l)]. *)
Fixpoint enumerate_from {A} (i : nat) (l : list A) : list (nat * A) :=
  match l with
  | [] => []
  | x :: l' => (i, x) :: enumerate_from (S i) l'
  end.

Definition ensure_ffmpeg_in_path : M bool :=
  found <- shutil_which (u "ffmpeg") ;;
  ret (match found with Some _ => true | None => false end).

(** [zip_dir(src_dir, zip_base)]. *)
Definition zip_dir (src_dir zip_base : path) : M path :=
  shutil_make_archive zip_base src_dir.

(** [safe_rmtree(path)]. *)
Definition safe_rmtree (p : path) : M unit :=
  try_except (shutil_rmtree p true) (fun _ => ret tt).

Section Pipeline.
Variable U : ucd.

(** The inner loop of [find_stems] (lines 56-59) for one file [w]. *)
Definition assign_keys (w : path) (paths : dict) : dict :=
  let name := Unicode.lower U (stem w) in
  fold_left
    (fun paths key => if contains key name then dict_set key (Some (to_str w)) paths else paths)
    STEM_KEYS paths.

(** The ordinal fallback of [find_stems] (lines 62-65). *)
Definition assign_by_position (wavs : list path) (paths : dict) : dict :=
  let wavs_sorted := sorted wavs in
  fold_left
    (fun paths ik =>
       if Nat.ltb (fst ik) (length wavs_sorted)
       then dict_set (snd ik) (option_map to_str (nth_error wavs_sorted (fst ik))) paths
       else paths)
    (enumerate_from 0 STEM_KEYS) paths.

Definition find_stems (stems_dir : path) : M dict :=
  let paths : dict := map (fun k => (k, None)) STEM_KEYS in
  wavs <- path_glob_wav stems_dir ;;
  let paths := fold_left (fun paths w => assign_keys w paths) wavs paths in
  let paths :=
    if negb (existsb truthy (map snd paths)) && negb (match wavs with [] => true | _ => false end)
    then assign_by_position wavs paths
    else paths in
  ret paths.

(** The command line of [run_demucs] (lines 73-74). *)
Definition demucs_device (use_gpu : bool) : str :=
  if use_gpu then u "cuda" else u "cpu".

Definition demucs_cmd (input_path : path) (model_name : str) (use_gpu : bool) (out_root : path)
  : list str :=
  [u "demucs"; u "-n"; model_name; u "-o"; to_str out_root;
   u "-d"; demucs_device use_gpu; to_str input_path].

(** The [except subprocess.CalledProcessError] clause of [run_demucs]
    (lines 78-88); other exceptions pass through. *)
Definition demucs_failure (device : str) (e : exn) : M unit :=
  match e with
  | CalledProcessError cmd code err =>
      let stderr := strip (Unicode.isspace U) err in
      let hint :=
        (if contains (u "argument") stderr && contains (u "--cpu") stderr
         then [HintNoCpuFlag] else []) ++
        (if contains (u "not available") (Unicode.lower U stderr) && eqb device (u "cuda")
         then [HintCudaUnavailable] else []) in
      raise (RuntimeError
               (MsgDemucsFailed
                  (match stderr with
                   | [] => ExitText cmd code
                   | _ => StderrTail (last_n 2000 stderr)
                   end) hint))
  | _ => raise e
  end.

(** [[p for p in ps if p.is_dir()]]. *)
Fixpoint only_dirs (ps : list path) : M (list path) :=
  match ps with
  | [] => ret []
  | p :: ps' =>
      b <- path_is_dir p ;;
      rest <- only_dirs ps' ;;
      ret (if b then p :: rest else rest)
  end.

(** The loop of lines 98-100: the first child with a [.wav] entry, if any. *)
Fixpoint first_child_with_wav (children : list path) : M (option path) :=
  match children with
  | [] => ret None
  | c :: cs =>
      wavs <- path_glob_wav c ;;
      match wavs with
      | [] => first_child_with_wav cs
      | _ => ret (Some c)
      end
  end.

(** The output search of [run_demucs], first part (lines 90-95): the
    directory of the model. *)
Definition resolve_model_dir (model_name : str) (out_root : path) : M path :=
  let model_dir := joinpath out_root model_name in
  present <- path_exists model_dir ;;
  if negb present then
    entries <- path_iterdir out_root ;;
    subdirs <- only_dirs entries ;;
    match subdirs with
    | [] => raise (RuntimeError MsgOutputMissing)
    | d :: _ => ret d
    end
  else ret model_dir.

(** The output search of [run_demucs], second part (lines 97-108): the
    directory of the stems below [model_dir]. *)
Definition locate_stems (model_dir : path) : M path :=
  entries <- path_iterdir model_dir ;;
  children <- only_dirs entries ;;
  found <- first_child_with_wav children ;;
  match found with
  | Some c => ret c
  | None =>
      here <- path_glob_wav model_dir ;;
      match here with
      | _ :: _ => ret model_dir
      | [] =>
          deep <- path_rglob_wav model_dir ;;
          match deep with
          | p :: _ => ret (parent p)
          | [] => raise (RuntimeError MsgStemsMissing)
          end
      end
  end.

(** The output search of [run_demucs] (lines 90-108). *)
Definition locate_output (model_name : str) (out_root : path) : M path :=
  model_dir <- resolve_model_dir model_name out_root ;;
  locate_stems model_dir.

Definition run_demucs (input_path : path) (model_name : str) (use_gpu : bool) (out_root : path)
  : M path :=
  if negb (existsb (eqb model_name) DEMUCS_MODELS)
  then raise (ValueError (MsgInvalidModel model_name DEMUCS_MODELS))
  else
    let device := demucs_device use_gpu in
    let cmd := demucs_cmd input_path model_name use_gpu out_root in
    try_except (subprocess_run cmd) (demucs_failure device) ;;
    locate_output model_name out_root.

Definition separate_core (file_path : path) (model_name : str) (use_gpu : bool)
  : M (path * path * path) :=
  ffmpeg <- ensure_ffmpeg_in_path ;;
  if negb ffmpeg then raise (RuntimeError MsgFfmpegMissing)
  else
    workdir <- tempfile_mkdtemp (u "demucs_work_") ;;
    let uploads := joinpath workdir (u "uploads") in
    let outputs := joinpath workdir (u "separated") in
    path_mkdir_p uploads ;;
    path_mkdir_p outputs ;;
    let safe_base := slugify_basename U (name file_path) (u "input") in
    let in_path := joinpath uploads (safe_base ++ u ".wav") in
    shutil_copyfile file_path in_path ;;
    stems_dir <- run_demucs in_path model_name use_gpu outputs ;;
    zip_path <- zip_dir stems_dir (joinpath workdir safe_base) ;;
    ret (zip_path, workdir, stems_dir).

End Pipeline.

(** ** The callers of the pipeline in [main.py] *)

(** The rule of [Path(s).suffix] on a final component. *)
Definition suffix_of (nm : str) : str :=
  match rfind dot nm with
  | Some i => if Nat.ltb 0 i && Nat.ltb i (length nm - 1) then skipn i nm else []
  | None => []
  end.

(** The error of [open(p, "wb")] for a [p] that cannot be created: ENOTDIR
    when a proper prefix of [p] names a regular file, ENOENT when one names
    nothing. *)
Definition open_error (fs : node) (p : path) : exn :=
  if existsb (fun n => match lookup (firstn n p) fs with
                       | Some (Dir _) | None => false
                       | Some _ => true
                       end) (seq 0 (length p))
  then NotADirectoryError p
  else FileNotFoundError p.

(** [p.write_bytes(data)]. *)
Definition path_write_bytes (p : path) (data : list N) : M unit :=
  fun w =>
    if is_dir (w_fs w) p then (Raise (IsADirectoryError p), w) else
    match set p (File data) (w_fs w) with
    | Some fs' => (Ok tt, with_fs fs' w)
    | None => (Raise (open_error (w_fs w) p), w)
    end.

(** [Path(file.filename).suffix or ".wav"]. *)
Definition upload_suffix (filename : str) : str :=
  match suffix_of (name (parse filename)) with
  | [] => u ".wav"
  | s => s
  end.

(** What [api_separate] answers: the [FileResponse] it returns or the
    [HTTPException] it raises. *)
Inductive response :=
| FileResponse (path : str) (media_type : str) (filename : str)
| HTTPException (status_code : Z) (detail : exn).

(** The task [_cleanup] that [api_separate] hands to [background_tasks]. *)
Definition api_cleanup (workdir tmp_in_dir : path) : M unit :=
  safe_rmtree workdir ;;
  safe_rmtree tmp_in_dir.

(** The two [except] clauses of [api_separate] (lines 183-192); [workdir]
    is the value of the variable of that name when the exception arrives. *)
Definition api_on_error (tmp_in_dir : path) (workdir : option path) (e : exn) : M response :=
  safe_rmtree tmp_in_dir ;;
  match workdir with
  | Some wd => safe_rmtree wd
  | None => ret tt
  end ;;
  ret (HTTPException (match e with ValueError _ => 400%Z | _ => 500%Z end) e).

(** What [gradio_workflow] gives back: the [gr.Error] it raises, a
    [KeyError] of the final indexing, or the five outputs together with the
    directory the 120 second timer will remove. *)
Inductive gr_error :=
| GrNoFile            (* "Envie um arquivo de áudio." *)
| GrFailed (e : exn). (* str(e) *)

Inductive gr_result :=
| GrRaise (e : gr_error)
| GrKeyError (key : str) (cleanup_later : path)
| GrOutputs (vocals drums bass other : option str) (zip : str) (cleanup_later : path).

(** The action of the timer of [gradio_workflow]. *)
Definition gradio_cleanup_later (workdir : path) : M unit := safe_rmtree workdir.

Section Callers.
Variable U : ucd.

(** [api_separate] (lines 153-192): the answer and the background task it
    registered, as the pair [(workdir, tmp_in_dir)] to clean.  The variable
    [workdir] is still [None] whenever an exception reaches the [except]
    clauses, since it is only assigned when [separate_core] returns. *)
Definition api_separate (filename : str) (content : list N) (model : str) (use_gpu : bool)
  : M (response * option (path * path)) :=
  let suffix := upload_suffix filename in
  tmp_in_dir <- tempfile_mkdtemp (u "api_in_") ;;
  let tmp_in := joinpath tmp_in_dir (u "upload" ++ suffix) in
  try_except
    (path_write_bytes tmp_in content ;;
     r <- separate_core U tmp_in model use_gpu ;;
     let zip_path := fst (fst r) in
     let workdir := snd (fst r) in
     let filename :=
       slugify_basename U filename (u "input") ++ u "_" ++ model ++ u "_stems.zip" in
     ret (FileResponse (to_str zip_path) (u "application/zip") filename,
          Some (workdir, tmp_in_dir)))
    (fun e =>
       resp <- api_on_error tmp_in_dir None e ;;
       ret (resp, None)).

(** [stems[key]]. *)
Definition stem_at (key : str) (stems : dict) : option (option str) := dict_get key stems.

(** [gradio_workflow] (lines 271-287). *)
Definition gradio_workflow (audio_file : option str) (model_name : str) (use_gpu : bool)
  : M gr_result :=
  match audio_file with
  | None | Some [] => ret (GrRaise GrNoFile)
  | Some f =>
      try_except
        (r <- separate_core U (parse f) model_name use_gpu ;;
         let zip_path := fst (fst r) in
         let workdir := snd (fst r) in
         let stems_dir := snd r in
         stems <- find_stems U stems_dir ;;
         ret (match stem_at (u "vocals") stems with
              | None => GrKeyError (u "vocals") workdir
              | Some vocals =>
                  match stem_at (u "drums") stems with
                  | None => GrKeyError (u "drums") workdir
                  | Some drums =>
                      match stem_at (u "bass") stems with
                      | None => GrKeyError (u "bass") workdir
                      | Some bass =>
                          match stem_at (u "other") stems with
                          | None => GrKeyError (u "other") workdir
                          | Some other =>
                              GrOutputs vocals drums bass other (to_str zip_path) workdir
                          end
                      end
                  end
              end))
        (fun e => ret (GrRaise (GrFailed e)))
  end.

End Callers.

(** ** Notions used in the statements *)

(** [appends P m]: whatever its outcome, [m] only adds events of kind [P]
    to the trace. *)
Definition appends {A} (P : event -> Prop) (m : M A) : Prop :=
  forall w, exists evs,
    w_trace (snd (m w)) = w_trace w ++ evs /\ Forall P evs.

(** The calls that look at the file system. *)
Definition is_inspect (ev : event) : Prop :=
  match ev with EvInspect _ => True | _ => False end.


(** The commands handed to [subprocess.run] in a stretch of trace. *)
Definition spawned (evs : list event) : list (list str) :=
  flat_map (fun ev => match ev with EvSpawn c => [c] | _ => [] end) evs.


(** [a <= b] on paths. *)
Definition path_le (a b : path) : Prop := path_leb a b = true.

(** The StemSet with all four keys [None]. *)
Definition no_stems : dict :=
  [(u "vocals", None); (u "drums", None); (u "bass", None); (u "other", None)].

(** The characters the claim allows in a normalized name: [a-z], [0-9],
    [-] and [_]. *)
Definition slug_char (c : N) : bool :=
  Unicode.in_range 97 122 c || Unicode.in_range 48 57 c ||
  N.eqb c hyphen || N.eqb c underscore.

(** The Output Locator as the specification words it (section 4.3), as a
    function of the file system; [None] stands for the failure
    [OutputNotFound]. *)
Module LocatorSpec.


(** [d] directly contains at least one [.wav] entry. *)
Definition contains_audio (fs : node) (d : path) : bool :=
  match names fs d with
  | Some l => existsb is_wav l
  | None => false
  end.




End LocatorSpec.


(** A node that is not a directory. *)
Definition regular (n : node) : Prop :=
  match n with Dir _ => False | _ => True end.

(** [q] lies strictly inside [p]. *)
Definition inside (p q : path) : Prop := exists rest, rest <> [] /\ q = p ++ rest.

(** A non-empty string without a slash, other than ["."], is one path
    component. *)
Definition component (s : str) : Prop :=
  s <> [] /\ s <> [dot] /\ Forall (fun c => c <> slash) s.

(** Induction on file-system trees, with the hypothesis for every entry of
    a directory. *)
Section NodeInduction.
Variable P : node -> Prop.
Hypothesis HFile : forall d, P (File d).
Hypothesis HZip : forall r, P (ZipFile r).
Hypothesis HDir : forall es, Forall (fun e => P (snd e)) es -> P (Dir es).

Fixpoint node_nested_ind (n : node) : P n :=
  match n with
  | File d => HFile d
  | ZipFile r => HZip r
  | Dir es =>
      HDir es
        ((fix go (es : list (str * node)) : Forall (fun e => P (snd e)) es :=
            match es with
            | [] => Forall_nil _
            | e :: es' =>
                Forall_cons e
                  (match e as e0 return P (snd e0) with
                   | (_, ch) => node_nested_ind ch
                   end)
                  (go es')
            end) es)
  end.
End NodeInduction.

(** [tidy b s]: in [s] every separator is a single hyphen, none follows
    another, and none comes first when [b] is set. *)
Fixpoint tidy (U : ucd) (b : bool) (s : str) : bool :=
  match s with
  | [] => true
  | c :: s' =>
      if sep_class U c
      then N.eqb c hyphen && negb b && tidy U true s'
      else tidy U false s'
  end.

(** Every value of [paths] is [None] or the printed path of a file of [wavs]. *)
Definition listed (wavs : list path) (paths : dict) : Prop :=
  forall k v, dict_get k paths = Some (Some v) -> exists p, In p wavs /\ v = to_str p.





(** ** Example hosts *)

(** A search path with ffmpeg on it. *)
Definition demo_which (prog : str) : option path :=
  if eqb prog (u "ffmpeg") then Some [u "usr"; u "bin"; u "ffmpeg"] else None.

(** A host without ffmpeg. *)
Definition bare_world : world :=
  {| w_fs := Dir [(u "tmp", Dir [])];
     w_which := fun _ => None;
     w_tmpdir := [u "tmp"];
     w_rand := [u "abc"];
     w_exec := fun _ fs => (NotStarted, fs);
     w_trace := [] |}.

(** A host with ffmpeg and a few stem directories. *)
Definition stems_world : world :=
  {| w_fs :=
       Dir [(u "tmp", Dir []);
            (u "empty", Dir [(u "notes.txt", File [])]);
            (u "plain", Dir [(u "voice.wav", File [1%N]);
                            (u "percussion.wav", File [2%N])]);
            (u "mixed", Dir [(u "bass_and_drums.wav", File [3%N])])];
     w_which := demo_which;
     w_tmpdir := [u "tmp"];
     w_rand := [u "abc"];
     w_exec := fun _ fs => (NotStarted, fs);
     w_trace := [] |}.

(** An output root as demucs leaves it: [out/htdemucs/track1] holds
    [vocals.wav] and [drums.wav]. *)
Definition track_world : world :=
  {| w_fs :=
       Dir [(u "out",
             Dir [(u "htdemucs",
                   Dir [(u "track1",
                         Dir [(u "vocals.wav", File [1%N]);
                              (u "drums.wav", File [2%N])])])]);
            (u "flat",
             Dir [(u "mdx_q", Dir [(u "readme.txt", File []); (u "bass.wav", File [3%N])])]);
            (u "deep",
             Dir [(u "mdx",
                   Dir [(u "a", Dir [(u "b", Dir [(u "other.wav", File [4%N])])])])]);
            (u "void", Dir [(u "mdx", Dir [(u "a", Dir [])])])];
     w_which := demo_which;
     w_tmpdir := [u "tmp"];
     w_rand := [u "abc"];
     w_exec := fun _ fs => (NotStarted, fs);
     w_trace := [] |}.

(** A host on which the whole pipeline succeeds: demucs writes
    [htdemucs/my-song/{vocals,drums}.wav] below the output root. *)
Definition studio_out : path :=
  [u "tmp"; u "demucs_work_abc"; u "separated"; u "htdemucs"; u "my-song"].

Definition studio_demucs (cmd : list str) (fs : node) : outcome * node :=
  match mkdirs studio_out fs with
  | Some fs1 =>
      match set (studio_out ++ [u "vocals.wav"]) (File [1%N]) fs1 with
      | Some fs2 =>
          match set (studio_out ++ [u "drums.wav"]) (File [2%N]) fs2 with
          | Some fs3 => (Exited 0 [], fs3)
          | None => (Exited 1 (u "write failed"), fs)
          end
      | None => (Exited 1 (u "write failed"), fs)
      end
  | None => (Exited 1 (u "no output directory"), fs)
  end.

Definition studio_world : world :=
  {| w_fs := Dir [(u "tmp", Dir []);
                  (u "in", Dir [(u "My Song.mp3", File [7%N; 8%N; 9%N])])];
     w_which := demo_which;
     w_tmpdir := [u "tmp"];
     w_rand := [u "abc"];
     w_exec := studio_demucs;
     w_trace := [] |}.

(** A stems directory with two takes of the vocals, listed before and
    after the drums. *)
Definition takes_world : world :=
  {| w_fs :=
       Dir [(u "takes",
             Dir [(u "vocals_a.wav", File [1%N]);
                  (u "drums.wav", File [2%N]);
                  (u "Vocals_B.wav", File [3%N]);
                  (u "extra.wav", File [4%N]);
                  (u "notes.txt", File [5%N])])];
     w_which := demo_which;
     w_tmpdir := [u "tmp"];
     w_rand := [u "abc"];
     w_exec := fun _ fs => (NotStarted, fs);
     w_trace := [] |}.


(** The output root of [track_world] after a successful run of demucs. *)
Definition ready_world : world :=
  {| w_fs := w_fs track_world;
     w_which := demo_which;
     w_tmpdir := [u "tmp"];
     w_rand := [u "abc"];
     w_exec := fun _ fs => (Exited 0 [], fs);
     w_trace := [] |}.

(** A host for the web API: two free names in the temporary directory, and
    a demucs that writes [htdemucs/upload/{vocals,drums}.wav] below the
    output root of the second one. *)
Definition backend_out : path :=
  [u "tmp"; u "demucs_work_def"; u "separated"; u "htdemucs"; u "upload"].

Definition backend_demucs (cmd : list str) (fs : node) : outcome * node :=
  match mkdirs backend_out fs with
  | Some fs1 =>
      match set (backend_out ++ [u "vocals.wav"]) (File [1%N]) fs1 with
      | Some fs2 =>
          match set (backend_out ++ [u "drums.wav"]) (File [2%N]) fs2 with
          | Some fs3 => (Exited 0 [], fs3)
          | None => (Exited 1 (u "write failed"), fs)
          end
      | None => (Exited 1 (u "write failed"), fs)
      end
  | None => (Exited 1 (u "no output directory"), fs)
  end.

Definition backend_world : world :=
  {| w_fs := Dir [(u "tmp", Dir [])];
     w_which := demo_which;
     w_tmpdir := [u "tmp"];
     w_rand := [u "abc"; u "def"];
     w_exec := backend_demucs;
     w_trace := [] |}.

(** * Properties *)

(** ** Strings and dictionaries *)

Lemma eqb_refl : forall a : str, eqb a a = true.
Proof.
  induction a as [|x a IH]; simpl; [reflexivity|].
  now rewrite N.eqb_refl, IH.
Qed.

Lemma eqb_eq : forall a b : str, eqb a b = true <-> a = b.
Proof.
  induction a as [|x a IH]; destruct b as [|y b]; simpl; split; intro H;
    try reflexivity; try discriminate.
  - apply andb_true_iff in H as [Hx Hr].
    apply N.eqb_eq in Hx. apply IH in Hr. now subst.
  - injection H as -> ->. now rewrite N.eqb_refl, eqb_refl.
Qed.

Lemma eqb_neq : forall a b : str, eqb a b = false <-> a <> b.
Proof.
  intros a b. split.
  - intros H E. apply eqb_eq in E. congruence.
  - intro H. destruct (eqb a b) eqn:E; [|reflexivity].
    apply eqb_eq in E. contradiction.
Qed.

Lemma dict_get_set_same : forall k v d, dict_get k (dict_set k v d) = Some v.
Proof.
  intros k v d. induction d as [|[k' v'] d IH]; simpl.
  - now rewrite eqb_refl.
  - destruct (eqb k k') eqn:E; simpl; rewrite ?eqb_refl, ?E; auto.
Qed.

Lemma dict_get_set_other :
  forall k k' v d, k <> k' -> dict_get k' (dict_set k v d) = dict_get k' d.
Proof.
  intros k k' v d Hne. induction d as [|[k0 v0] d IH]; simpl.
  - assert (eqb k' k = false) as -> by (apply eqb_neq; congruence). reflexivity.
  - destruct (eqb k k0) eqn:E; simpl.
    + apply eqb_eq in E. subst k0.
      assert (eqb k' k = false) as -> by (apply eqb_neq; congruence). reflexivity.
    + now rewrite IH.
Qed.

(** ** Traces *)

Lemma appends_ret : forall A P (a : A), appends P (ret a).
Proof. intros A P a w. exists []. simpl. now rewrite app_nil_r. Qed.

Lemma appends_raise : forall A P e, appends P (@raise A e).
Proof. intros A P e w. exists []. simpl. now rewrite app_nil_r. Qed.

Lemma appends_bind :
  forall A B P (m : M A) (k : A -> M B),
    appends P m -> (forall a, appends P (k a)) -> appends P (bind m k).
Proof.
  intros A B P m k Hm Hk w. unfold bind.
  destruct (Hm w) as [e1 [T1 F1]].
  destruct (m w) as [[a|e] w1]; simpl in T1.
  - destruct (Hk a w1) as [e2 [T2 F2]].
    exists (e1 ++ e2). rewrite T2, T1, app_assoc. split; [reflexivity|].
    apply Forall_app; auto.
  - exists e1. simpl. auto.
Qed.

Lemma appends_try_except :
  forall A P (m : M A) (h : exn -> M A),
    appends P m -> (forall e, appends P (h e)) -> appends P (try_except m h).
Proof.
  intros A P m h Hm Hh w. unfold try_except.
  destruct (Hm w) as [e1 [T1 F1]].
  destruct (m w) as [[a|e] w1]; simpl in T1.
  - exists e1. simpl. auto.
  - destruct (Hh e w1) as [e2 [T2 F2]].
    exists (e1 ++ e2). rewrite T2, T1, app_assoc. split; [reflexivity|].
    apply Forall_app; auto.
Qed.

Lemma appends_weaken :
  forall A (P Q : event -> Prop) (m : M A),
    (forall ev, P ev -> Q ev) -> appends P m -> appends Q m.
Proof.
  intros A P Q m HPQ Hm w. destruct (Hm w) as [evs [T F]].
  exists evs. split; [exact T|]. eapply Forall_impl; eauto.
Qed.

Ltac one_event :=
  eexists [_]; simpl; split; [reflexivity | repeat constructor].


Lemma appends_path_exists : forall p, appends is_inspect (path_exists p).
Proof. intros p w. unfold path_exists. one_event. Qed.

Lemma appends_path_is_dir : forall p, appends is_inspect (path_is_dir p).
Proof. intros p w. unfold path_is_dir. one_event. Qed.

Lemma appends_path_glob_wav : forall p, appends is_inspect (path_glob_wav p).
Proof. intros p w. unfold path_glob_wav. one_event. Qed.

Lemma appends_path_rglob_wav : forall p, appends is_inspect (path_rglob_wav p).
Proof. intros p w. unfold path_rglob_wav. one_event. Qed.

Lemma appends_path_iterdir : forall p, appends is_inspect (path_iterdir p).
Proof.
  intros p w. unfold path_iterdir.
  destruct (lookup p (w_fs w)) as [[d|r|es]|]; one_event.
Qed.

Lemma appends_only_dirs : forall ps, appends is_inspect (only_dirs ps).
Proof.
  induction ps as [|p ps IH]; simpl.
  - apply appends_ret.
  - apply appends_bind; [apply appends_path_is_dir|]. intro b.
    apply appends_bind; [exact IH|]. intro rest. apply appends_ret.
Qed.

Lemma appends_first_child_with_wav :
  forall cs, appends is_inspect (first_child_with_wav cs).
Proof.
  induction cs as [|c cs IH]; simpl.
  - apply appends_ret.
  - apply appends_bind; [apply appends_path_glob_wav|].
    intros [|x l]; [exact IH | apply appends_ret].
Qed.

Lemma appends_locate_output :
  forall model_name out_root, appends is_inspect (locate_output model_name out_root).
Proof.
  intros model_name out_root. unfold locate_output, resolve_model_dir, locate_stems.
  apply appends_bind.
  - apply appends_bind; [apply appends_path_exists|]. intro present.
    destruct present; simpl; [apply appends_ret|].
    apply appends_bind; [apply appends_path_iterdir|]. intro entries.
    apply appends_bind; [apply appends_only_dirs|].
    intros [|d l]; [apply appends_raise | apply appends_ret].
  - intro model_dir.
    apply appends_bind; [apply appends_path_iterdir|]. intro entries.
    apply appends_bind; [apply appends_only_dirs|]. intro children.
    apply appends_bind; [apply appends_first_child_with_wav|].
    intros [c|]; [apply appends_ret|].
    apply appends_bind; [apply appends_path_glob_wav|].
    intros [|x l]; [|apply appends_ret].
    apply appends_bind; [apply appends_path_rglob_wav|].
    intros [|p l]; [apply appends_raise | apply appends_ret].
Qed.

Lemma appends_demucs_failure :
  forall U P device e, appends P (demucs_failure U device e).
Proof.
  intros U P device e. destruct e; simpl; apply appends_raise.
Qed.

Lemma spawned_inspect : forall evs, Forall is_inspect evs -> spawned evs = [].
Proof.
  induction 1 as [|ev evs Hev _ IH]; [reflexivity|].
  destruct ev; simpl in *; try contradiction. exact IH.
Qed.

Lemma supported_model :
  forall model_name,
    In model_name DEMUCS_MODELS -> existsb (eqb model_name) DEMUCS_MODELS = true.
Proof.
  intros m H. apply existsb_exists. exists m. split; [exact H | apply eqb_refl].
Qed.


Lemma subprocess_run_trace :
  forall cmd w, w_trace (snd (subprocess_run cmd w)) = w_trace w ++ [EvSpawn cmd].
Proof.
  intros cmd w. unfold subprocess_run.
  destruct (w_exec w cmd (w_fs w)) as [[code err|] fs']; [|reflexivity].
  destruct (Z.eqb code 0); reflexivity.
Qed.

(** ** The Pipeline Orchestrator without ffmpeg *)

(** C6: when [shutil.which("ffmpeg")] finds nothing, [separate_core] raises
    the RuntimeError about the missing FFmpeg at once: the file system is
    left as it was and the only call made is the search for ffmpeg, so no
    temporary directory has been created. *)
Theorem separate_core_without_ffmpeg :
  forall U file_path model_name use_gpu w,
    w_which w (u "ffmpeg") = None ->
    let r := separate_core U file_path model_name use_gpu w in
    fst r = Raise (RuntimeError MsgFfmpegMissing) /\
    w_fs (snd r) = w_fs w /\
    w_trace (snd r) = w_trace w ++ [EvWhich (u "ffmpeg")].
Proof.
  intros U file_path model_name use_gpu w H.
  unfold separate_core, ensure_ffmpeg_in_path, bind, shutil_which, ret.
  rewrite H. simpl. repeat split.
Qed.

(** ** Cleanup *)

Lemma shutil_rmtree_missing_raises :
  forall p w,
    lookup p (w_fs w) = None ->
    fst (shutil_rmtree p false w) = Raise (FileNotFoundError p).
Proof. intros p w H. unfold shutil_rmtree. now rewrite H. Qed.

(** C7: [safe_rmtree] returns normally for every path and every state of
    the file system, and a path that does not exist leaves the file system
    as it was. *)
Theorem safe_rmtree_never_raises :
  forall p w,
    fst (safe_rmtree p w) = Ok tt /\
    (lookup p (w_fs w) = None -> w_fs (snd (safe_rmtree p w)) = w_fs w).
Proof.
  intros p w. unfold safe_rmtree, try_except, shutil_rmtree.
  destruct (lookup p (w_fs w)) as [[d|r|es]|]; simpl; split;
    try reflexivity; intro H; discriminate H.
Qed.

Lemma safe_rmtree_never_raises_witness :
  lookup [u "nowhere"] (w_fs bare_world) = None /\
  fst (safe_rmtree [u "nowhere"] bare_world) = Ok tt /\
  w_fs (snd (safe_rmtree [u "nowhere"] bare_world)) = w_fs bare_world.
Proof.
  assert (H : lookup [u "nowhere"] (w_fs bare_world) = None) by reflexivity.
  split; [exact H|].
  destruct (safe_rmtree_never_raises [u "nowhere"] bare_world) as [A B].
  split; [exact A | exact (B H)].
Defined.

(** ** The Separation Invoker's command line *)

(** C5: for a supported model, [run_demucs] hands [subprocess.run] exactly
    one command, [demucs -n <model> -o <out_root> -d <device> <input>],
    whose device is [cpu] when [use_gpu] is false and [cuda] when it is
    true. *)
Theorem run_demucs_command :
  forall U input_path model_name use_gpu out_root w,
    In model_name DEMUCS_MODELS ->
    exists evs,
      w_trace (snd (run_demucs U input_path model_name use_gpu out_root w))
        = w_trace w ++ evs /\
      spawned evs =
        [[u "demucs"; u "-n"; model_name; u "-o"; to_str out_root;
          u "-d"; (if use_gpu then u "cuda" else u "cpu"); to_str input_path]].
Proof.
  intros U input_path model_name use_gpu out_root w Hin.
  fold (demucs_device use_gpu).
  change [u "demucs"; u "-n"; model_name; u "-o"; to_str out_root;
          u "-d"; demucs_device use_gpu; to_str input_path]
    with (demucs_cmd input_path model_name use_gpu out_root).
  set (cmd := demucs_cmd input_path model_name use_gpu out_root).
  unfold run_demucs. rewrite (supported_model _ Hin). cbn [negb].
  unfold bind, try_except. fold cmd.
  pose proof (subprocess_run_trace cmd w) as T.
  destruct (subprocess_run cmd w) as [[[]|e] w1]; simpl in T.
  - destruct (appends_locate_output model_name out_root w1) as [evs [T2 F2]].
    exists (EvSpawn cmd :: evs). split.
    + rewrite T2, T. now rewrite <- app_assoc.
    + simpl. now rewrite (spawned_inspect _ F2).
  - assert (H : exists e', demucs_failure U (demucs_device use_gpu) e w1 = (Raise e', w1))
      by (destruct e; simpl; unfold raise; eauto).
    destruct H as [e' ->]. exists [EvSpawn cmd]. simpl. split; [exact T | reflexivity].
Qed.

Lemma separate_core_without_ffmpeg_witness :
  w_which bare_world (u "ffmpeg") = None /\
  fst (separate_core Unicode.latin1_only [u "song.mp3"] (u "htdemucs") false bare_world)
    = Raise (RuntimeError MsgFfmpegMissing).
Proof.
  split; [reflexivity|].
  apply (separate_core_without_ffmpeg Unicode.latin1_only [u "song.mp3"]
           (u "htdemucs") false bare_world).
  reflexivity.
Defined.

Lemma run_demucs_command_witness :
  In (u "mdx") DEMUCS_MODELS /\
  exists evs,
    w_trace (snd (run_demucs Unicode.latin1_only [u "in.wav"] (u "mdx") true [u "out"]
                    bare_world))
      = w_trace bare_world ++ evs /\
    spawned evs =
      [[u "demucs"; u "-n"; u "mdx"; u "-o"; to_str [u "out"];
        u "-d"; u "cuda"; to_str [u "in.wav"]]].
Proof.
  assert (H : In (u "mdx") DEMUCS_MODELS) by (simpl; auto).
  split; [exact H|].
  exact (run_demucs_command Unicode.latin1_only [u "in.wav"] (u "mdx") true [u "out"]
           bare_world H).
Defined.

(** ** The order on paths and [sorted] *)

Lemma ltb_irrefl : forall a : str, ltb a a = false.
Proof.
  induction a as [|x a IH]; simpl; [reflexivity|].
  now rewrite N.ltb_irrefl, N.eqb_refl, IH.
Qed.

Lemma ltb_asym : forall a b : str, ltb a b = true -> ltb b a = false.
Proof.
  induction a as [|x a IH]; destruct b as [|y b]; simpl; intro H;
    try reflexivity; try discriminate.
  apply orb_true_iff in H as [H|H].
  - apply N.ltb_lt in H.
    assert (N.ltb y x = false) as -> by (apply N.ltb_ge; lia).
    assert (N.eqb y x = false) as -> by (apply N.eqb_neq; lia).
    reflexivity.
  - apply andb_true_iff in H as [E L]. apply N.eqb_eq in E. subst y.
    now rewrite N.ltb_irrefl, N.eqb_refl, (IH _ L).
Qed.

Lemma eqb_sym : forall a b : str, eqb a b = eqb b a.
Proof.
  intros a b. destruct (eqb a b) eqn:E.
  - apply eqb_eq in E. subst. now rewrite eqb_refl.
  - symmetry. apply eqb_neq. apply eqb_neq in E. congruence.
Qed.

Lemma path_ltb_asym : forall a b : path, path_ltb a b = true -> path_ltb b a = false.
Proof.
  induction a as [|x a IH]; destruct b as [|y b]; simpl; intro H;
    try reflexivity; try discriminate.
  apply orb_true_iff in H as [H|H].
  - rewrite (ltb_asym _ _ H).
    destruct (eqb y x) eqn:E; [|reflexivity].
    apply eqb_eq in E. subst y. rewrite ltb_irrefl in H. discriminate.
  - apply andb_true_iff in H as [E L]. apply eqb_eq in E. subst y.
    now rewrite ltb_irrefl, eqb_refl, (IH _ L).
Qed.

Lemma insert_sorted_perm : forall p l, Permutation (p :: l) (insert_sorted p l).
Proof.
  intros p l. induction l as [|q l IH]; simpl; [apply Permutation_refl|].
  destruct (path_ltb q p).
  - eapply Permutation_trans; [apply perm_swap|]. now apply perm_skip.
  - apply Permutation_refl.
Qed.

Lemma insert_sorted_Sorted :
  forall p l, Sorted path_le l -> Sorted path_le (insert_sorted p l).
Proof.
  intros p l H. induction H as [|q l Hs IH Hd]; simpl.
  - repeat constructor.
  - destruct (path_ltb q p) eqn:E.
    + constructor; [exact IH|].
      destruct l as [|q' l]; simpl.
      * constructor. unfold path_le, path_leb. now rewrite (path_ltb_asym _ _ E).
      * destruct (path_ltb q' p).
        -- constructor. now inversion Hd.
        -- constructor. unfold path_le, path_leb. now rewrite (path_ltb_asym _ _ E).
    + constructor; [constructor; assumption|].
      constructor. unfold path_le, path_leb. now rewrite E.
Qed.

Lemma sorted_perm : forall l, Permutation l (sorted l).
Proof.
  induction l as [|p l IH]; simpl; [constructor|].
  eapply Permutation_trans; [apply perm_skip, IH | apply insert_sorted_perm].
Qed.

Lemma sorted_Sorted : forall l, Sorted path_le (sorted l).
Proof.
  induction l as [|p l IH]; simpl; [constructor | now apply insert_sorted_Sorted].
Qed.

(** ** The Stem Mapper *)

Ltac distinct_keys := let E := fresh in intro E; vm_compute in E; discriminate E.

Lemma assign_keys_no_match :
  forall U w paths,
    (forall key, In key STEM_KEYS -> contains key (Unicode.lower U (stem w)) = false) ->
    assign_keys U w paths = paths.
Proof.
  intros U w paths H. unfold assign_keys, STEM_KEYS in *. cbn [fold_left].
  rewrite !H; simpl; auto 6.
Qed.

Lemma assign_all_no_match :
  forall U wavs paths,
    (forall w key, In w wavs -> In key STEM_KEYS ->
                   contains key (Unicode.lower U (stem w)) = false) ->
    fold_left (fun paths w => assign_keys U w paths) wavs paths = paths.
Proof.
  intros U wavs. induction wavs as [|w wavs IH]; intros paths H; simpl; [reflexivity|].
  rewrite assign_keys_no_match by (intros; apply H; simpl; auto).
  apply IH. intros; apply H; simpl; auto.
Qed.

Lemma assign_by_position_spec :
  forall wavs,
    let at_ i := option_map to_str (nth_error (sorted wavs) i) in
    assign_by_position wavs no_stems =
      [(u "vocals", at_ 0); (u "drums", at_ 1); (u "bass", at_ 2); (u "other", at_ 3)].
Proof.
  intros wavs at_. unfold assign_by_position, at_. clear at_.
  set (l := sorted wavs).
  assert (Hnone : forall i, Nat.ltb i (length l) = false ->
                            option_map to_str (nth_error l i) = None).
  { intros i Hi. apply Nat.ltb_ge in Hi.
    now rewrite (proj2 (nth_error_None l i) Hi). }
  unfold STEM_KEYS, no_stems. cbn [enumerate_from fold_left fst snd].
  destruct (Nat.ltb 0 (length l)) eqn:E0;
    destruct (Nat.ltb 1 (length l)) eqn:E1;
    destruct (Nat.ltb 2 (length l)) eqn:E2;
    destruct (Nat.ltb 3 (length l)) eqn:E3;
    rewrite ?(Hnone _ E0), ?(Hnone _ E1), ?(Hnone _ E2), ?(Hnone _ E3);
    reflexivity.
Qed.

(** C8: a stems directory without any [.wav] entry (an empty directory, or a
    path that is no directory at all) makes [find_stems] return normally,
    with all four keys [None] and the file system untouched. *)
Theorem find_stems_no_audio :
  forall U stems_dir w,
    glob_wav (w_fs w) stems_dir = [] ->
    fst (find_stems U stems_dir w) = Ok no_stems /\
    w_fs (snd (find_stems U stems_dir w)) = w_fs w.
Proof.
  intros U stems_dir w H.
  unfold find_stems, bind, path_glob_wav, ret. rewrite H. simpl. split; reflexivity.
Qed.

(** C9: in the per-file key loop of [find_stems], a file whose lowercased
    stem contains a canonical key is written to the slot of that key,
    whichever other keys it also matches and whatever the slots held. *)
Theorem assign_keys_every_match :
  forall U w paths key,
    In key STEM_KEYS ->
    contains key (Unicode.lower U (stem w)) = true ->
    dict_get key (assign_keys U w paths) = Some (Some (to_str w)).
Proof.
  intros U w paths key Hin Hc. unfold assign_keys.
  set (nm := Unicode.lower U (stem w)) in *.
  unfold STEM_KEYS in *. cbn [fold_left].
  destruct Hin as [<-|[<-|[<-|[<-|[]]]]]; rewrite Hc;
    repeat match goal with
           | |- context [if contains ?k nm then _ else _] => destruct (contains k nm)
           end;
    repeat first [ rewrite dict_get_set_same; reflexivity
                 | rewrite dict_get_set_other by distinct_keys ].
Qed.

(** C4: when the directory has [.wav] entries and none of their lowercased
    stems contains a canonical key, [find_stems] gives the keys vocals,
    drums, bass, other the first, second, third and fourth entry of the
    sorted listing, and [None] to the keys past its end; the sorted listing
    is the listing rearranged in ascending path order. *)
Theorem find_stems_ordinal_fallback :
  forall U stems_dir w,
    let wavs := glob_wav (w_fs w) stems_dir in
    let at_ i := option_map to_str (nth_error (sorted wavs) i) in
    wavs <> [] ->
    (forall p key, In p wavs -> In key STEM_KEYS ->
                   contains key (Unicode.lower U (stem p)) = false) ->
    fst (find_stems U stems_dir w) =
      Ok [(u "vocals", at_ 0); (u "drums", at_ 1); (u "bass", at_ 2); (u "other", at_ 3)] /\
    Permutation wavs (sorted wavs) /\
    Sorted path_le (sorted wavs).
Proof.
  intros U stems_dir w wavs at_ Hne Hno.
  split; [|split; [apply sorted_perm | apply sorted_Sorted]].
  unfold find_stems, bind, path_glob_wav, ret. fold wavs. cbn [fst].
  change (map (fun k : str => (k, @None str)) STEM_KEYS) with no_stems.
  rewrite (assign_all_no_match U wavs no_stems Hno).
  change (existsb truthy (map snd no_stems)) with false.
  assert (Hb : match wavs with [] => true | _ :: _ => false end = false)
    by (destruct wavs; [contradiction | reflexivity]).
  rewrite Hb. cbn [negb andb]. f_equal. apply assign_by_position_spec.
Qed.

Lemma find_stems_no_audio_witness :
  glob_wav (w_fs stems_world) [u "empty"] = [] /\
  fst (find_stems Unicode.latin1_only [u "empty"] stems_world) = Ok no_stems.
Proof.
  assert (H : glob_wav (w_fs stems_world) [u "empty"] = []) by reflexivity.
  split; [exact H|].
  exact (proj1 (find_stems_no_audio Unicode.latin1_only [u "empty"] stems_world H)).
Defined.

Lemma assign_keys_every_match_witness :
  In (u "drums") STEM_KEYS /\
  contains (u "drums")
    (Unicode.lower Unicode.latin1_only (stem [u "mixed"; u "bass_and_drums.wav"])) = true /\
  dict_get (u "drums")
    (assign_keys Unicode.latin1_only [u "mixed"; u "bass_and_drums.wav"] no_stems)
    = Some (Some (u "/mixed/bass_and_drums.wav")).
Proof.
  assert (H1 : In (u "drums") STEM_KEYS) by (simpl; auto).
  assert (H2 : contains (u "drums")
                 (Unicode.lower Unicode.latin1_only
                    (stem [u "mixed"; u "bass_and_drums.wav"])) = true)
    by reflexivity.
  split; [exact H1|]. split; [exact H2|].
  exact (assign_keys_every_match Unicode.latin1_only [u "mixed"; u "bass_and_drums.wav"]
           no_stems (u "drums") H1 H2).
Defined.

(** The file [bass_and_drums.wav] alone fills both the bass and the drums
    slot. *)
Example find_stems_bass_and_drums :
  fst (find_stems Unicode.latin1_only [u "mixed"] stems_world) =
    Ok [(u "vocals", None);
        (u "drums", Some (u "/mixed/bass_and_drums.wav"));
        (u "bass", Some (u "/mixed/bass_and_drums.wav"));
        (u "other", None)].
Proof. reflexivity. Qed.

Lemma find_stems_ordinal_fallback_witness :
  glob_wav (w_fs stems_world) [u "plain"] <> [] /\
  fst (find_stems Unicode.latin1_only [u "plain"] stems_world) =
    Ok [(u "vocals", Some (u "/plain/percussion.wav"));
        (u "drums", Some (u "/plain/voice.wav"));
        (u "bass", None);
        (u "other", None)].
Proof.
  assert (H1 : glob_wav (w_fs stems_world) [u "plain"] <> []) by discriminate.
  assert (H2 : forall p key,
             In p (glob_wav (w_fs stems_world) [u "plain"]) ->
             In key STEM_KEYS ->
             contains key (Unicode.lower Unicode.latin1_only (stem p)) = false).
  { intros p key Hp Hk.
    destruct Hp as [<-|[<-|[]]]; destruct Hk as [<-|[<-|[<-|[<-|[]]]]]; reflexivity. }
  split; [exact H1|].
  exact (proj1 (find_stems_ordinal_fallback Unicode.latin1_only [u "plain"] stems_world
                  H1 H2)).
Defined.

(** ** The Input Normalizer *)

Lemma In_lstrip : forall f s c, In c (lstrip f s) -> In c s.
Proof.
  intros f s c. induction s as [|x s IH]; simpl; [auto|].
  destruct (f x); auto.
Qed.

Lemma In_strip : forall f s c, In c (strip f s) -> In c s.
Proof.
  intros f s c H. unfold strip, rstrip in H.
  apply in_rev in H. apply In_lstrip in H. apply in_rev in H.
  now apply In_lstrip in H.
Qed.

Lemma In_sub_runs :
  forall cls repl b s c,
    In c (PyRe.sub_runs_from cls repl b s) -> In c repl \/ (In c s /\ cls c = false).
Proof.
  intros cls repl b s. revert b.
  induction s as [|x s IH]; intros b c H; simpl in H; [contradiction|].
  destruct (cls x) eqn:E.
  - apply in_app_or in H as [H|H].
    + destruct b; [contradiction | auto].
    + destruct (IH _ _ H) as [H'|[H' H'']]; [auto | right; split; simpl; auto].
  - destruct H as [<-|H]; [right; split; simpl; auto|].
    destruct (IH _ _ H) as [H'|[H' H'']]; [auto | right; split; simpl; auto].
Qed.

(** Whatever the name, the normalized name is not empty, and each of its
    characters is a word character or a hyphen, or comes from the default. *)
Lemma slugify_basename_chars :
  forall U name default,
    default <> [] ->
    slugify_basename U name default <> [] /\
    forall c, In c (slugify_basename U name default) ->
              In c default \/ Unicode.isword U c = true \/ c = hyphen.
Proof.
  intros U name default Hd. unfold slugify_basename.
  set (base := strip trim_class _).
  assert (Hbase : forall c, In c base -> Unicode.isword U c = true \/ c = hyphen).
  { intros c H. unfold base in H. apply In_strip in H.
    unfold PyRe.sub_runs in H. apply In_sub_runs in H as [H|[H Hs]].
    - destruct H as [<-|[]]. right. reflexivity.
    - unfold PyRe.sub_drop_outside in H. apply filter_In in H as [_ Hk].
      unfold keep_class in Hk. unfold sep_class in Hs.
      apply orb_false_iff in Hs as [Hh Hsp]. rewrite Hh, Hsp, !orb_false_r in Hk.
      now left. }
  destruct base as [|x base']; [split; [exact Hd | auto]|].
  split; [discriminate|]. intros c H. right. now apply Hbase.
Qed.

(** C1 (the code departs from the claim): the stem of [é.wav] is
    the one letter U+00E9, a word character for [re], and
    [slugify_basename] returns it as it is: the result is neither ASCII nor
    made of [a-z], [0-9], [-] and [_] only. *)
Theorem slugify_basename_keeps_non_ascii :
  forall U,
    slugify_basename U ([233%N] ++ u ".wav") (u "input") = [233%N] /\
    forallb slug_char (slugify_basename U ([233%N] ++ u ".wav") (u "input")) = false.
Proof. intro U. split; reflexivity. Qed.

Lemma In_split : forall sep s part c, In part (split sep s) -> In c part -> In c s.
Proof.
  intros sep s. induction s as [|x s IH]; intros part c Hp Hc; simpl in Hp.
  - destruct Hp as [<-|[]]. contradiction.
  - destruct (N.eqb x sep).
    + destruct Hp as [<-|Hp]; [contradiction | right; eauto].
    + destruct (split sep s) as [|h t] eqn:E.
      * destruct Hp as [<-|[]]. destruct Hc as [<-|[]]. now left.
      * destruct Hp as [<-|Hp].
        -- destruct Hc as [<-|Hc]; [now left | right].
           apply (IH h); simpl; auto.
        -- right. apply (IH part); simpl; auto.
Qed.

Lemma In_last : forall (p : path) c, In c (last p []) -> exists part, In part p /\ In c part.
Proof.
  induction p as [|x p IH]; intros c H; simpl in H; [contradiction|].
  destruct p as [|y p].
  - exists x. simpl; auto.
  - destruct (IH c H) as [part [Hp Hc]]. exists part. simpl in *; auto.
Qed.

Lemma In_firstn : forall (s : str) i c, In c (firstn i s) -> In c s.
Proof.
  induction s as [|x s IH]; intros [|i] c H; simpl in *; try contradiction.
  destruct H as [<-|H]; eauto.
Qed.

Lemma In_stem_of : forall nm c, In c (stem_of nm) -> In c nm.
Proof.
  intros nm c. unfold stem_of.
  destruct (rfind dot nm) as [i|]; [|auto].
  destruct (Nat.ltb 0 i && Nat.ltb i (length nm - 1)); [|auto].
  apply In_firstn.
Qed.

Lemma In_stem_parse : forall s c, In c (stem (parse s)) -> In c s.
Proof.
  intros s c H. unfold stem, name in H. apply In_stem_of in H.
  apply In_last in H as [part [Hp Hc]].
  unfold parse in Hp. apply filter_In in Hp as [Hp _].
  eapply In_split; eauto.
Qed.

Ltac by_bounds :=
  repeat (match goal with
          | |- context [N.leb ?a ?b] => destruct (N.leb_spec a b)
          | |- context [N.ltb ?a ?b] => destruct (N.ltb_spec a b)
          | |- context [N.eqb ?a ?b] => destruct (N.eqb_spec a b)
          | H : context [N.leb ?a ?b] |- _ => destruct (N.leb_spec a b)
          | H : context [N.ltb ?a ?b] |- _ => destruct (N.ltb_spec a b)
          | H : context [N.eqb ?a ?b] |- _ => destruct (N.eqb_spec a b)
          end; try lia; simpl in *; try discriminate; try reflexivity).

Lemma lower_ascii :
  forall U s before c,
    Forall (fun x => (x < 128)%N) s ->
    In c (Unicode.lower_from U before s) ->
    (c < 128)%N /\ Unicode.in_range 65 90 c = false.
Proof.
  intros U s. induction s as [|x s IH]; intros before c Hs H; simpl in H; [contradiction|].
  inversion Hs as [|? ? Hx Hs']; subst.
  assert (N.ltb x 256 = true) as E by (apply N.ltb_lt; lia).
  rewrite E in H. destruct H as [<-|H]; [|eauto].
  unfold Unicode.latin1_lower, Unicode.in_range. split; by_bounds.
Qed.

Lemma isword_ascii_lower :
  forall U c,
    (c < 128)%N -> Unicode.in_range 65 90 c = false ->
    Unicode.isword U c = true -> slug_char c = true.
Proof.
  intros U c Hc Hup Hw.
  unfold Unicode.isword, Unicode.isalnum, Unicode.latin1_alnum in Hw.
  unfold slug_char, Unicode.in_range, hyphen, underscore in *.
  assert (N.ltb c 256 = true) as E by (apply N.ltb_lt; lia).
  rewrite E in Hw. by_bounds.
Qed.

(** On ASCII names the normalizer does what the claim says: the result is
    not empty and made of [a-z], [0-9], [-] and [_] only. *)
Lemma slugify_basename_ascii :
  forall U name,
    Forall (fun x => (x < 128)%N) name ->
    slugify_basename U name (u "input") <> [] /\
    forallb slug_char (slugify_basename U name (u "input")) = true.
Proof.
  intros U name Hn.
  split; [apply slugify_basename_chars; discriminate|].
  apply forallb_forall. intros c H. unfold slugify_basename in H.
  set (low := Unicode.lower U (stem (parse name))) in *.
  set (base := strip trim_class _) in *.
  assert (Hbase : forall c, In c base -> slug_char c = true).
  { intros d Hd. unfold base in Hd. apply In_strip in Hd.
    unfold PyRe.sub_runs in Hd. apply In_sub_runs in Hd as [Hd|[Hd Hs]].
    - destruct Hd as [<-|[]]. reflexivity.
    - unfold PyRe.sub_drop_outside in Hd. apply filter_In in Hd as [Hl Hk].
      unfold keep_class in Hk. unfold sep_class in Hs.
      apply orb_false_iff in Hs as [Hh Hsp]. rewrite Hh, Hsp, !orb_false_r in Hk.
      unfold low, Unicode.lower in Hl.
      assert (Hst : Forall (fun x => (x < 128)%N) (stem (parse name))).
      { apply Forall_forall. intros x Hx. apply In_stem_parse in Hx.
        revert x Hx. now apply Forall_forall. }
      destruct (lower_ascii U _ _ _ Hst Hl) as [H1 H2].
      now apply (isword_ascii_lower U). }
  destruct base as [|x base']; [|now apply Hbase].
  vm_compute in H. vm_compute.
  repeat (destruct H as [<-|H]; [reflexivity|]). contradiction.
Qed.

(** ** The Output Locator *)

Lemma only_dirs_spec :
  forall ps w,
    fst (only_dirs ps w) = Ok (filter (is_dir (w_fs w)) ps) /\
    w_fs (snd (only_dirs ps w)) = w_fs w.
Proof.
  induction ps as [|p ps IH]; intro w; simpl; [split; reflexivity|].
  unfold bind, path_is_dir.
  destruct (IH (logged (EvInspect p) w)) as [F S].
  destruct (only_dirs ps (logged (EvInspect p) w)) as [r w1].
  simpl in F, S. subst r. simpl.
  split; [|exact S]. now destruct (is_dir (w_fs w) p).
Qed.

Lemma glob_wav_nonempty :
  forall fs d,
    match glob_wav fs d with [] => false | _ :: _ => true end
    = LocatorSpec.contains_audio fs d.
Proof.
  intros fs d. unfold glob_wav, LocatorSpec.contains_audio.
  destruct (names fs d) as [l|]; [|reflexivity].
  induction l as [|x l IH]; simpl; [reflexivity|].
  destruct (is_wav x); simpl; [reflexivity | exact IH].
Qed.

Lemma first_child_with_wav_spec :
  forall cs w,
    fst (first_child_with_wav cs w)
      = Ok (find (LocatorSpec.contains_audio (w_fs w)) cs) /\
    w_fs (snd (first_child_with_wav cs w)) = w_fs w.
Proof.
  induction cs as [|c cs IH]; intro w; simpl; [split; reflexivity|].
  unfold bind, path_glob_wav.
  rewrite <- (glob_wav_nonempty (w_fs w) c).
  destruct (glob_wav (w_fs w) c) as [|x l]; simpl.
  - apply (IH (logged (EvInspect c) w)).
  - split; reflexivity.
Qed.







(** The later steps of the search: a model directory under another name
    that holds the audio itself, audio found by the recursive search only,
    and no audio at all. *)
Example locate_output_fallbacks :
  fst (locate_output (u "mdx") [u "flat"] track_world) = Ok [u "flat"; u "mdx_q"] /\
  fst (locate_output (u "mdx") [u "deep"] track_world) = Ok [u "deep"; u "mdx"; u "a"; u "b"] /\
  fst (locate_output (u "mdx") [u "void"] track_world) = Raise (RuntimeError MsgStemsMissing).
Proof. repeat split. Qed.

(** ** File-system facts *)

Lemma assoc_put_same : forall k v es, assoc k (put k v es) = Some v.
Proof.
  intros k v es. induction es as [|[k' v'] es IH]; simpl.
  - now rewrite eqb_refl.
  - destruct (eqb k k') eqn:E; simpl; rewrite ?eqb_refl, ?E; auto.
Qed.

Lemma assoc_put_other :
  forall k k' v es, k <> k' -> assoc k' (put k v es) = assoc k' es.
Proof.
  intros k k' v es Hne. induction es as [|[k0 v0] es IH]; simpl.
  - assert (eqb k' k = false) as -> by (apply eqb_neq; congruence). reflexivity.
  - destruct (eqb k k0) eqn:E; simpl.
    + apply eqb_eq in E. subst k0.
      assert (eqb k' k = false) as -> by (apply eqb_neq; congruence). reflexivity.
    + now rewrite IH.
Qed.

Lemma assoc_del : forall k es, assoc k (del k es) = None.
Proof.
  intros k es. induction es as [|[k' v'] es IH]; simpl; [reflexivity|].
  destruct (eqb k k') eqn:E; simpl; [exact IH|]. now rewrite E.
Qed.

Lemma lookup_app :
  forall p q n,
    lookup (p ++ q) n = match lookup p n with
                        | Some m => lookup q m
                        | None => None
                        end.
Proof.
  induction p as [|c p IH]; intros q n; simpl; [reflexivity|].
  destruct n as [d|r|es]; try reflexivity.
  destruct (assoc c es); [apply IH | reflexivity].
Qed.

Lemma set_cons :
  forall c p v es,
    p <> [] ->
    set (c :: p) v (Dir es) =
      match assoc c es with
      | Some ch => match set p v ch with
                   | Some ch' => Some (Dir (put c ch' es))
                   | None => None
                   end
      | None => None
      end.
Proof.
  intros c p v es Hp. destruct p as [|x p]; [contradiction|].
  simpl. destruct (assoc c es); reflexivity.
Qed.


Lemma lookup_set_same :
  forall p v n n', set p v n = Some n' -> lookup p n' = Some v.
Proof.
  induction p as [|c p IH]; intros v n n' H; simpl in H.
  - injection H as <-. reflexivity.
  - destruct n as [d|r|es]; try discriminate.
    destruct p as [|x p].
    + injection H as <-. simpl. now rewrite assoc_put_same.
    + destruct (assoc c es) as [ch|]; [|discriminate].
      destruct (set (x :: p) v ch) as [ch'|] eqn:S; [|discriminate].
      injection H as <-. cbn [lookup]. rewrite assoc_put_same.
      now apply (IH v ch).
Qed.



Lemma lookup_remove :
  forall p n, p <> [] -> lookup p (remove p n) = None.
Proof.
  induction p as [|c p IH]; intros n Hp; [contradiction|].
  destruct n as [d|r|es]; try reflexivity.
  destruct p as [|y p].
  - simpl. now rewrite assoc_del.
  - cbn [remove]. destruct (assoc c es) as [ch|] eqn:E.
    + cbn [lookup]. rewrite assoc_put_same. apply IH. discriminate.
    + cbn [lookup]. now rewrite E.
Qed.

Lemma lookup_under_regular :
  forall p rest n x,
    lookup p n = Some x -> regular x -> rest <> [] -> lookup (p ++ rest) n = None.
Proof.
  intros p rest n x H Hx Hr. rewrite lookup_app, H.
  destruct rest; [contradiction|]. destruct x; simpl; auto; contradiction.
Qed.

(** After [safe_rmtree p] nothing is left strictly inside [p]. *)
Lemma safe_rmtree_clears :
  forall p q w,
    p <> [] -> inside p q ->
    exists_ (w_fs (snd (safe_rmtree p w))) q = false.
Proof.
  intros p q w Hp [rest [Hr ->]].
  unfold safe_rmtree, try_except, shutil_rmtree, exists_.
  destruct (lookup p (w_fs w)) as [[d|r|es]|] eqn:E; simpl.
  - now rewrite (lookup_under_regular p rest _ _ E I Hr).
  - now rewrite (lookup_under_regular p rest _ _ E I Hr).
  - now rewrite lookup_app, lookup_remove.
  - now rewrite lookup_app, E.
Qed.

(** ** Path facts *)


Lemma split_no_sep :
  forall sep s, Forall (fun c => c <> sep) s -> split sep s = [s].
Proof.
  intros sep s H. induction H as [|c s Hc _ IH]; simpl; [reflexivity|].
  apply N.eqb_neq in Hc. now rewrite Hc, IH.
Qed.

Lemma joinpath_component : forall p s, component s -> joinpath p s = p ++ [s].
Proof.
  intros p s [Hne [Hdot Hs]]. unfold joinpath, parse.
  rewrite (split_no_sep _ _ Hs). cbn [filter].
  apply eqb_neq in Hne, Hdot. rewrite Hne, Hdot. cbn [negb andb].
  destruct s as [|c s]; [reflexivity|].
  inversion Hs as [|? ? Hc _]; subst. apply N.eqb_neq in Hc.
  cbn [startswith]. rewrite N.eqb_sym, Hc. reflexivity.
Qed.

Lemma slug_no_slash_dot :
  forall U nm c,
    In c (slugify_basename U nm (u "input")) -> c <> slash /\ c <> dot.
Proof.
  intros U nm c H.
  destruct (slugify_basename_chars U nm (u "input")) as [_ Hc]; [discriminate|].
  destruct (Hc c H) as [Hin|[Hw| ->]].
  - vm_compute in Hin.
    repeat (destruct Hin as [<-|Hin]; [split; discriminate|]). contradiction.
  - split; intros ->; vm_compute in Hw; discriminate.
  - split; discriminate.
Qed.

Lemma slug_component :
  forall U nm, component (slugify_basename U nm (u "input")).
Proof.
  intros U nm. unfold component.
  destruct (slugify_basename_chars U nm (u "input")) as [Hne _]; [discriminate|].
  split; [exact Hne|]. split.
  - intro E. assert (H : In dot (slugify_basename U nm (u "input"))) by (rewrite E; now left).
    apply slug_no_slash_dot in H as [_ H]. now apply H.
  - apply Forall_forall. intros c H. now apply slug_no_slash_dot in H.
Qed.


Lemma archive_path_child :
  forall p c, archive_path (p ++ [c]) = p ++ [c ++ u ".zip"].
Proof.
  intros p c. unfold archive_path.
  destruct (p ++ [c]) eqn:E; [destruct p; discriminate|].
  rewrite <- E. now rewrite removelast_last, last_last.
Qed.

(** ** Stepping through the monad *)

Lemma bind_ok :
  forall A B (m : M A) (k : A -> M B) w b w',
    bind m k w = (Ok b, w') ->
    exists a w1, m w = (Ok a, w1) /\ k a w1 = (Ok b, w').
Proof.
  intros A B m k w b w' H. unfold bind in H.
  destruct (m w) as [[a|e] w1]; [eauto | discriminate].
Qed.

Lemma mkdtemp_loop_ok :
  forall dir prefix cands w p w',
    mkdtemp_loop dir prefix cands w = (Ok p, w') ->
    exists r, p = dir ++ [prefix ++ r].
Proof.
  intros dir prefix cands. induction cands as [|r rest IH]; intros w p w' H; simpl in H.
  - discriminate.
  - destruct (lookup dir (w_fs w)) as [[d|z|es]|]; try discriminate.
    destruct (assoc (prefix ++ r) es).
    + simpl in H. eapply IH. exact H.
    + destruct (set (child dir (prefix ++ r)) (Dir []) (w_fs w)); [|discriminate].
      injection H as <- _. exists r. reflexivity.
Qed.


(** ** Where the output search looks *)

Lemma walk_prefix :
  forall n here d, In d (walk here n) -> exists r, d = here ++ r.
Proof.
  induction n as [data|root|es IH] using node_nested_ind; intros here d H; simpl in H.
  - destruct H as [<-|[]]. exists []. now rewrite app_nil_r.
  - destruct H as [<-|[]]. exists []. now rewrite app_nil_r.
  - destruct H as [<-|H]; [exists []; now rewrite app_nil_r|].
    revert H. induction es as [|[nm ch] es IHes]; simpl; intro Hin; [contradiction|].
    inversion IH as [|? ? Hch Hrest]; subst.
    apply in_app_or in Hin as [Hin|Hin].
    + destruct ch as [x|x|es']; try contradiction.
      apply Hch in Hin as [r ->]. exists ([nm] ++ r). now rewrite app_assoc.
    + now apply IHes.
Qed.

Lemma In_glob_wav : forall fs d p, In p (glob_wav fs d) -> exists nm, p = d ++ [nm].
Proof.
  intros fs d p H. unfold glob_wav in H.
  destruct (names fs d) as [l|]; [|contradiction].
  apply in_map_iff in H as [nm [<- _]]. now exists nm.
Qed.

Lemma In_rglob_wav :
  forall fs d p, In p (rglob_wav fs d) -> exists r nm, p = (d ++ r) ++ [nm].
Proof.
  intros fs d p H. unfold rglob_wav in H.
  destruct (lookup d fs) as [[x|x|es]|]; try contradiction.
  apply in_flat_map in H as [q [Hq Hp]].
  apply walk_prefix in Hq as [r ->].
  apply In_glob_wav in Hp as [nm ->]. eauto.
Qed.

Lemma path_iterdir_ok :
  forall p w l w',
    path_iterdir p w = (Ok l, w') ->
    w_fs w' = w_fs w /\ forall q, In q l -> exists nm, q = p ++ [nm].
Proof.
  intros p w l w' H. unfold path_iterdir in H.
  destruct (lookup p (w_fs w)) as [[x|x|es]|]; try discriminate.
  injection H as <- <-. split; [reflexivity|].
  intros q Hq. apply in_map_iff in Hq as [nm [<- _]]. now exists nm.
Qed.

Lemma only_dirs_ok :
  forall ps w l w',
    only_dirs ps w = (Ok l, w') ->
    w_fs w' = w_fs w /\ forall q, In q l -> In q ps.
Proof.
  intros ps w l w' H. destruct (only_dirs_spec ps w) as [F S].
  rewrite H in F, S. simpl in F, S. injection F as ->.
  split; [exact S|]. intros q Hq. now apply filter_In in Hq.
Qed.

Lemma first_child_with_wav_ok :
  forall cs w c w',
    first_child_with_wav cs w = (Ok (Some c), w') -> In c cs.
Proof.
  intros cs w c w' H. destruct (first_child_with_wav_spec cs w) as [F _].
  rewrite H in F. simpl in F. injection F as F. symmetry in F.
  now apply find_some in F.
Qed.

Lemma supported_model_component :
  forall model_name, In model_name DEMUCS_MODELS -> component model_name.
Proof.
  intros m H. unfold component.
  destruct H as [<-|[<-|[<-|[<-|[]]]]];
    (split; [discriminate | split; [discriminate | repeat constructor; discriminate]]).
Qed.

Lemma resolve_model_dir_ok :
  forall model_name out_root w d w',
    In model_name DEMUCS_MODELS ->
    resolve_model_dir model_name out_root w = (Ok d, w') ->
    exists nm, d = out_root ++ [nm].
Proof.
  intros model out w d w' Hin H. unfold resolve_model_dir in H.
  apply bind_ok in H as [present [w1 [_ H]]].
  destruct present; simpl in H.
  - injection H as <- _. exists model.
    apply joinpath_component. now apply supported_model_component.
  - apply bind_ok in H as [entries [w2 [Hi H]]].
    apply bind_ok in H as [subdirs [w3 [Ho H]]].
    apply path_iterdir_ok in Hi as [_ Hi]. apply only_dirs_ok in Ho as [_ Ho].
    destruct subdirs as [|x l]; [discriminate|].
    injection H as <- _. apply Hi, Ho. now left.
Qed.

Lemma locate_stems_ok :
  forall model_dir w d w',
    locate_stems model_dir w = (Ok d, w') -> exists r, d = model_dir ++ r.
Proof.
  intros md w d w' H. unfold locate_stems in H.
  apply bind_ok in H as [entries [w1 [Hi H]]].
  apply bind_ok in H as [children [w2 [Ho H]]].
  apply bind_ok in H as [found [w3 [Hf H]]].
  apply path_iterdir_ok in Hi as [_ Hi]. apply only_dirs_ok in Ho as [_ Ho].
  destruct found as [c|].
  - injection H as <- _. apply first_child_with_wav_ok in Hf.
    destruct (Hi c (Ho c Hf)) as [nm ->]. eauto.
  - apply bind_ok in H as [here [w4 [_ H]]].
    destruct here as [|x l].
    + apply bind_ok in H as [deep [w5 [Hr H]]].
      destruct deep as [|p l]; [discriminate|].
      injection H as <- _. unfold path_rglob_wav in Hr. injection Hr as Hr _.
      assert (Hp : In p (rglob_wav (w_fs w4) md)) by (rewrite Hr; now left).
      apply In_rglob_wav in Hp as [r [nm ->]].
      exists r. unfold parent. now rewrite removelast_last.
    + injection H as <- _. exists []. now rewrite app_nil_r.
Qed.

(** What the output search returns lies strictly inside the output root. *)
Lemma locate_output_inside :
  forall model_name out_root w d w',
    In model_name DEMUCS_MODELS ->
    locate_output model_name out_root w = (Ok d, w') ->
    inside out_root d.
Proof.
  intros model out w d w' Hin H. unfold locate_output in H.
  apply bind_ok in H as [md [w1 [Hm Hs]]].
  apply (resolve_model_dir_ok _ _ _ _ _ Hin) in Hm as [nm ->].
  apply locate_stems_ok in Hs as [r ->].
  exists (nm :: r). split; [discriminate|]. now rewrite <- app_assoc.
Qed.

(** ** The Pipeline Orchestrator's results *)

Lemma shutil_make_archive_ok :
  forall base root w z w',
    shutil_make_archive base root w = (Ok z, w') ->
    z = archive_path base /\ exists_ (w_fs w') z = true.
Proof.
  intros base root w z w' H. unfold shutil_make_archive in H.
  destruct (lookup root (w_fs w)) as [[x|x|es]|]; try discriminate.
  destruct (mkdirs (removelast (archive_path base)) (w_fs w)) as [fs1|]; [|discriminate].
  destruct (set (archive_path base) (ZipFile (Dir es)) fs1) as [fs2|] eqn:S; [|discriminate].
  injection H as <- <-. split; [reflexivity|].
  unfold exists_. simpl. now rewrite (lookup_set_same _ _ _ _ S).
Qed.

Lemma run_demucs_ok :
  forall U input_path model_name use_gpu out_root w d w',
    run_demucs U input_path model_name use_gpu out_root w = (Ok d, w') ->
    In model_name DEMUCS_MODELS /\
    exists w1, locate_output model_name out_root w1 = (Ok d, w').
Proof.
  intros U input model gpu out w d w' H. unfold run_demucs in H.
  destruct (existsb (eqb model) DEMUCS_MODELS) eqn:E; [|discriminate].
  apply existsb_exists in E as [x [Hin Hx]]. apply eqb_eq in Hx. subst x.
  split; [exact Hin|]. simpl in H.
  apply bind_ok in H as [[] [w1 [_ H]]]. eauto.
Qed.

(** C10: when [separate_core] returns [(zip_path, workdir, stems_dir)], the
    archive and the stems directory both lie strictly inside [workdir], the
    archive is on disk, and one [safe_rmtree workdir], run in any later
    state of the host, leaves neither the archive nor the stems directory
    behind. *)
Theorem separate_core_results_inside_workdir :
  forall U file_path model_name use_gpu w zip_path workdir stems_dir,
    fst (separate_core U file_path model_name use_gpu w)
      = Ok (zip_path, workdir, stems_dir) ->
    inside workdir zip_path /\
    inside workdir stems_dir /\
    exists_ (w_fs (snd (separate_core U file_path model_name use_gpu w))) zip_path = true /\
    forall later,
      exists_ (w_fs (snd (safe_rmtree workdir later))) zip_path = false /\
      exists_ (w_fs (snd (safe_rmtree workdir later))) stems_dir = false.
Proof.
  intros U file model gpu w zip workdir stems H.
  destruct (separate_core U file model gpu w) as [r w'] eqn:E.
  simpl in H. subst r. cbn [snd].
  unfold separate_core in E.
  apply bind_ok in E as [ffmpeg [w1 [_ E]]].
  destruct ffmpeg; [|discriminate]. simpl in E.
  apply bind_ok in E as [wd [w2 [Htmp E]]].
  apply bind_ok in E as [[] [w3 [_ E]]].
  apply bind_ok in E as [[] [w4 [_ E]]].
  apply bind_ok in E as [[] [w5 [_ E]]].
  apply bind_ok in E as [sd [w6 [Hrun E]]].
  apply bind_ok in E as [zp [w7 [Hzip E]]].
  injection E as -> -> -> ->.
  unfold tempfile_mkdtemp in Htmp. apply mkdtemp_loop_ok in Htmp as [r Hwd].
  assert (Hne : workdir <> []) by (subst workdir; destruct (w_tmpdir w1); discriminate).
  apply run_demucs_ok in Hrun as [Hin [w0 Hloc]].
  apply (locate_output_inside _ _ _ _ _ Hin) in Hloc as [rest [Hrest Hst]].
  assert (Hstems : inside workdir stems).
  { exists (u "separated" :: rest). split; [discriminate|].
    rewrite Hst. change (joinpath workdir (u "separated")) with (workdir ++ [u "separated"]).
    now rewrite <- app_assoc. }
  unfold zip_dir in Hzip. apply shutil_make_archive_ok in Hzip as [Hz Hex].
  rewrite (joinpath_component _ _ (slug_component U (name file))) in Hz.
  rewrite archive_path_child in Hz.
  assert (Hzin : inside workdir zip).
  { eexists. split; [|exact Hz]. discriminate. }
  repeat split; try assumption; now apply safe_rmtree_clears.
Qed.

Lemma separate_core_results_inside_workdir_witness :
  fst (separate_core Unicode.latin1_only [u "in"; u "My Song.mp3"] (u "htdemucs") false
         studio_world)
    = Ok ([u "tmp"; u "demucs_work_abc"; u "my-song.zip"],
          [u "tmp"; u "demucs_work_abc"],
          studio_out) /\
  inside [u "tmp"; u "demucs_work_abc"] [u "tmp"; u "demucs_work_abc"; u "my-song.zip"] /\
  inside [u "tmp"; u "demucs_work_abc"] studio_out.
Proof.
  assert (H : fst (separate_core Unicode.latin1_only [u "in"; u "My Song.mp3"]
                     (u "htdemucs") false studio_world)
              = Ok ([u "tmp"; u "demucs_work_abc"; u "my-song.zip"],
                    [u "tmp"; u "demucs_work_abc"],
                    studio_out))
    by reflexivity.
  split; [exact H|].
  destruct (separate_core_results_inside_workdir Unicode.latin1_only
              [u "in"; u "My Song.mp3"] (u "htdemucs") false studio_world
              _ _ _ H) as [A [B _]].
  split; assumption.
Defined.

(** ** An unsupported model *)










Lemma bind_step :
  forall A B (m : M A) (k : A -> M B) w a w1,
    m w = (Ok a, w1) -> bind m k w = k a w1.
Proof. intros A B m k w a w1 H. unfold bind. now rewrite H. Qed.


Lemma lookup_fresh_child :
  forall p c es n,
    lookup p n = Some (Dir es) -> assoc c es = None -> lookup (p ++ [c]) n = None.
Proof. intros p c es n Hp Hc. rewrite lookup_app, Hp. simpl. now rewrite Hc. Qed.







(** * Further properties *)

(** ** More on the Input Normalizer *)

(** X1: whatever the name, the normalized name is one path component: it is
    not empty, holds neither a slash nor a dot, and joined to a directory
    it names an entry of that directory. *)
Theorem slugify_basename_one_component :
  forall U name,
    let s := slugify_basename U name (u "input") in
    s <> [] /\ ~ In slash s /\ ~ In dot s /\
    forall dir, joinpath dir s = child dir s.
Proof.
  intros U name s. subst s.
  destruct (slug_component U name) as [Hne Hc].
  split; [exact Hne|]. split; [|split].
  - intro H. now apply slug_no_slash_dot in H as [H _].
  - intro H. now apply slug_no_slash_dot in H as [_ H].
  - intro dir. unfold child. apply joinpath_component. split; assumption.
Qed.

Lemma lstrip_head : forall f s c r, lstrip f s = c :: r -> f c = false.
Proof.
  intros f s. induction s as [|x s IH]; intros c r H; simpl in H; [discriminate|].
  destruct (f x) eqn:E; [eauto|]. now injection H as <- _.
Qed.

Lemma lstrip_suffix : forall f s, exists pre, s = pre ++ lstrip f s.
Proof.
  intros f s. induction s as [|x s [pre IH]]; simpl; [now exists []|].
  destruct (f x).
  - exists (x :: pre). simpl. now rewrite <- IH.
  - now exists [].
Qed.

Lemma rstrip_last : forall f s r c, rstrip f s = r ++ [c] -> f c = false.
Proof.
  intros f s r c H. unfold rstrip in H.
  apply (f_equal (@rev N)) in H. rewrite rev_involutive, rev_app_distr in H.
  simpl in H. now apply lstrip_head in H.
Qed.

Lemma rstrip_prefix : forall f s, exists post, s = rstrip f s ++ post.
Proof.
  intros f s. unfold rstrip.
  destruct (lstrip_suffix f (rev s)) as [pre H].
  exists (rev pre). apply (f_equal (@rev N)) in H.
  now rewrite rev_involutive, rev_app_distr in H.
Qed.

Lemma strip_head : forall f s c r, strip f s = c :: r -> f c = false.
Proof.
  intros f s c r H. unfold strip in H.
  destruct (rstrip_prefix f (lstrip f s)) as [post E].
  rewrite H in E. simpl in E. now apply lstrip_head in E.
Qed.

Lemma strip_last : forall f s r c, strip f s = r ++ [c] -> f c = false.
Proof. intros f s r c H. unfold strip in H. now apply rstrip_last in H. Qed.

Lemma slug_ends :
  forall U name,
    let s := slugify_basename U name (u "input") in
    (forall c r, s = c :: r -> trim_class c = false) /\
    (forall r c, s = r ++ [c] -> trim_class c = false).
Proof.
  intros U name s. subst s. unfold slugify_basename.
  set (t := PyRe.sub_runs (sep_class U) (u "-") _).
  destruct (strip trim_class t) as [|x b] eqn:E.
  - split.
    + intros c r H. injection H as <- _. reflexivity.
    + intros r c H.
      change (u "input") with ([105; 110; 112; 117]%N ++ [116%N]) in H.
      apply app_inj_tail in H as [_ <-]. reflexivity.
  - rewrite <- E. split.
    + intros c r H. now apply strip_head in H.
    + intros r c H. now apply strip_last in H.
Qed.

(** X2: the normalized name holds no white space and neither begins nor ends
    with a hyphen or an underscore. *)
Theorem slugify_basename_trimmed :
  forall U name,
    let s := slugify_basename U name (u "input") in
    Forall (fun c => Unicode.isspace U c = false) s /\
    (forall c r, s = c :: r -> trim_class c = false) /\
    (forall r c, s = r ++ [c] -> trim_class c = false).
Proof.
  intros U name s. split; [|exact (slug_ends U name)].
  subst s. unfold slugify_basename.
  set (t := PyRe.sub_runs (sep_class U) (u "-") _).
  destruct (strip trim_class t) as [|x b] eqn:E; [repeat constructor|].
  rewrite <- E. apply Forall_forall. intros c H. apply In_strip in H.
  unfold t, PyRe.sub_runs in H. apply In_sub_runs in H as [H|[_ H]].
  - destruct H as [<-|[]]. reflexivity.
  - unfold sep_class in H. now apply orb_false_iff in H as [_ H].
Qed.

Lemma tidy_sub_runs :
  forall U b s, tidy U b (PyRe.sub_runs_from (sep_class U) (u "-") b s) = true.
Proof.
  intros U b s. revert b. induction s as [|c s IH]; intro b; simpl; [reflexivity|].
  destruct (sep_class U c) eqn:E.
  - destruct b; simpl; [apply IH|].
    change (sep_class U 45) with true. cbn [andb negb]. apply IH.
  - cbn [tidy]. rewrite E. apply IH.
Qed.

Lemma tidy_weaken : forall U s, tidy U true s = true -> tidy U false s = true.
Proof.
  intros U [|c s] H; simpl in *; [reflexivity|].
  destruct (sep_class U c); [|exact H].
  apply andb_true_iff in H as [H _]. apply andb_true_iff in H as [_ H]. discriminate.
Qed.

Lemma tidy_tail : forall U b pre s, tidy U b (pre ++ s) = true -> tidy U false s = true.
Proof.
  intros U b pre. revert b. induction pre as [|c pre IH]; intros b s H; simpl in H.
  - destruct b; [now apply tidy_weaken | exact H].
  - destruct (sep_class U c); [|eauto].
    apply andb_true_iff in H as [_ H]. eauto.
Qed.

Lemma tidy_init : forall U b s post, tidy U b (s ++ post) = true -> tidy U b s = true.
Proof.
  intros U b s. revert b. induction s as [|c s IH]; intros b post H; simpl in *; [reflexivity|].
  destruct (sep_class U c); [|eauto].
  apply andb_true_iff in H as [H1 H2]. rewrite H1. simpl. eauto.
Qed.

Lemma tidy_strip :
  forall U f b s, tidy U b s = true -> tidy U false (strip f s) = true.
Proof.
  intros U f b s H. unfold strip.
  destruct (lstrip_suffix f s) as [pre E]. rewrite E in H. apply tidy_tail in H.
  destruct (rstrip_prefix f (lstrip f s)) as [post E2]. rewrite E2 in H.
  now apply tidy_init in H.
Qed.

Lemma sub_runs_tidy :
  forall U b s,
    tidy U b s = true -> PyRe.sub_runs_from (sep_class U) (u "-") b s = s.
Proof.
  intros U b s. revert b. induction s as [|c s IH]; intros b H; simpl in *; [reflexivity|].
  destruct (sep_class U c).
  - apply andb_true_iff in H as [H H2]. apply andb_true_iff in H as [Hc Hb].
    apply N.eqb_eq in Hc. subst c. destruct b; [discriminate|].
    simpl. now rewrite (IH true H2).
  - now rewrite (IH false H).
Qed.

Lemma rfind_absent : forall c s, ~ In c s -> rfind c s = None.
Proof.
  intros c s. induction s as [|x s IH]; intro H; simpl; [reflexivity|].
  rewrite IH by (intro; apply H; now right).
  destruct (N.eqb x c) eqn:E; [|reflexivity].
  apply N.eqb_eq in E. subst x. exfalso. apply H. now left.
Qed.

Lemma lower_slug_chars :
  forall U s before,
    forallb slug_char s = true -> Unicode.lower_from U before s = s.
Proof.
  intros U s. induction s as [|c s IH]; intros before H; simpl in *; [reflexivity|].
  apply andb_true_iff in H as [Hc Hs]. rewrite (IH _ Hs).
  assert (E : N.ltb c 256 = true /\ Unicode.latin1_lower c = c).
  { unfold slug_char, Unicode.latin1_lower, Unicode.in_range, hyphen, underscore in *.
    split; by_bounds. }
  destruct E as [-> ->]. reflexivity.
Qed.

Lemma keep_slug_chars :
  forall U s, forallb slug_char s = true -> filter (keep_class U) s = s.
Proof.
  intros U s. induction s as [|c s IH]; intro H; simpl in *; [reflexivity|].
  apply andb_true_iff in H as [Hc Hs]. rewrite (IH Hs).
  assert (E : keep_class U c = true).
  { unfold keep_class, Unicode.isword, Unicode.isalnum, Unicode.latin1_alnum.
    unfold slug_char, Unicode.in_range, hyphen, underscore in *.
    assert (L : N.ltb c 256 = true) by by_bounds. rewrite L. by_bounds. }
  now rewrite E.
Qed.

Lemma lstrip_id : forall f s, (forall c r, s = c :: r -> f c = false) -> lstrip f s = s.
Proof.
  intros f [|c s] H; simpl; [reflexivity|]. now rewrite (H c s eq_refl).
Qed.

Lemma strip_id :
  forall f s,
    (forall c r, s = c :: r -> f c = false) ->
    (forall r c, s = r ++ [c] -> f c = false) ->
    strip f s = s.
Proof.
  intros f s Hh Hl. unfold strip, rstrip. rewrite (lstrip_id f s Hh).
  rewrite lstrip_id; [apply rev_involutive|].
  intros c r E. apply (Hl (rev r) c).
  rewrite <- (rev_involutive s), E. reflexivity.
Qed.

(** X3: on ASCII names the normalized name is made of [a-z], [0-9], [-] and
    [_] only, and normalizing is idempotent: a normalized name is its own
    normalization. *)
Theorem slugify_basename_idempotent :
  forall U name,
    Forall (fun x => (x < 128)%N) name ->
    forallb slug_char (slugify_basename U name (u "input")) = true /\
    slugify_basename U (slugify_basename U name (u "input")) (u "input")
      = slugify_basename U name (u "input").
Proof.
  intros U name Hn.
  destruct (slugify_basename_ascii U name Hn) as [_ Hch].
  split; [exact Hch|].
  destruct (slug_ends U name) as [Hh Hl].
  destruct (slug_component U name) as [Hne Hc].
  assert (Hdot : ~ In dot (slugify_basename U name (u "input")))
    by (intro H; now apply slug_no_slash_dot in H as [_ H]).
  assert (Ht : tidy U false (slugify_basename U name (u "input")) = true).
  { unfold slugify_basename.
    destruct (strip trim_class _) eqn:E; [reflexivity|].
    rewrite <- E. apply (tidy_strip U trim_class false). apply tidy_sub_runs. }
  set (s := slugify_basename U name (u "input")) in *.
  unfold slugify_basename at 1.
  assert (P : parse s = [s]).
  { pose proof (joinpath_component [] s (conj Hne Hc)) as J.
    unfold joinpath in J. destruct (startswith [slash] s); exact J. }
  rewrite P. unfold stem, PyPath.name. cbn [last]. unfold stem_of.
  rewrite (rfind_absent _ _ Hdot). unfold Unicode.lower.
  rewrite (lower_slug_chars U s [] Hch). unfold PyRe.sub_drop_outside.
  rewrite (keep_slug_chars U s Hch). unfold PyRe.sub_runs.
  rewrite (sub_runs_tidy U false s Ht). rewrite (strip_id trim_class s Hh Hl).
  destruct s; [contradiction | reflexivity].
Qed.

Lemma slugify_basename_idempotent_witness :
  Forall (fun x => (x < 128)%N) (u "My Song (Live) -- v2.mp3") /\
  slugify_basename Unicode.latin1_only (u "my-song-live-v2") (u "input")
    = u "my-song-live-v2".
Proof.
  assert (H : Forall (fun x => (x < 128)%N) (u "My Song (Live) -- v2.mp3"))
    by (repeat constructor).
  split; [exact H|].
  exact (proj2 (slugify_basename_idempotent Unicode.latin1_only _ H)).
Defined.

(** ** More on the Stem Mapper *)

Lemma dict_get_set :
  forall k k' v d,
    dict_get k (dict_set k' v d) = if eqb k' k then Some v else dict_get k d.
Proof.
  intros k k' v d. destruct (eqb k' k) eqn:E.
  - apply eqb_eq in E. subst k'. apply dict_get_set_same.
  - apply eqb_neq in E. now apply dict_get_set_other.
Qed.

Lemma dict_set_keys :
  forall k v d, In k (map fst d) -> map fst (dict_set k v d) = map fst d.
Proof.
  intros k v d. induction d as [|[k' v'] d IH]; intro H; simpl in *; [contradiction|].
  destruct (eqb k k') eqn:E; simpl.
  - apply eqb_eq in E. now subst.
  - f_equal. apply IH. destruct H as [H|H]; [|exact H].
    apply eqb_neq in E. congruence.
Qed.

Lemma assign_keys_keys :
  forall U w paths,
    map fst paths = STEM_KEYS -> map fst (assign_keys U w paths) = STEM_KEYS.
Proof.
  intros U w paths H. unfold assign_keys.
  assert (G : forall keys d,
             (forall k, In k keys -> In k STEM_KEYS) -> map fst d = STEM_KEYS ->
             map fst (fold_left
                        (fun paths key =>
                           if contains key (Unicode.lower U (stem w))
                           then dict_set key (Some (to_str w)) paths else paths)
                        keys d) = STEM_KEYS).
  { induction keys as [|k keys IH]; intros d Hk Hd; simpl; [exact Hd|].
    apply IH; [intros; apply Hk; now right|].
    destruct (contains k _); [|exact Hd].
    rewrite dict_set_keys; [exact Hd|]. rewrite Hd. apply Hk. now left. }
  apply G; auto.
Qed.

Lemma assign_all_keys :
  forall U wavs paths,
    map fst paths = STEM_KEYS ->
    map fst (fold_left (fun paths w => assign_keys U w paths) wavs paths) = STEM_KEYS.
Proof.
  intros U wavs. induction wavs as [|w wavs IH]; intros paths H; simpl; [exact H|].
  apply IH. now apply assign_keys_keys.
Qed.

Lemma assign_by_position_keys :
  forall wavs paths,
    map fst paths = STEM_KEYS -> map fst (assign_by_position wavs paths) = STEM_KEYS.
Proof.
  intros wavs paths H. unfold assign_by_position.
  set (l := sorted wavs).
  assert (G : forall iks d,
             (forall ik, In ik iks -> In (snd ik) STEM_KEYS) -> map fst d = STEM_KEYS ->
             map fst (fold_left
                        (fun paths (ik : nat * str) =>
                           if Nat.ltb (fst ik) (length l)
                           then dict_set (snd ik)
                                  (option_map to_str (nth_error l (fst ik))) paths
                           else paths)
                        iks d) = STEM_KEYS).
  { induction iks as [|ik iks IH]; intros d Hk Hd; simpl; [exact Hd|].
    apply IH; [intros; apply Hk; now right|].
    destruct (Nat.ltb _ _); [|exact Hd].
    rewrite dict_set_keys; [exact Hd|]. rewrite Hd. apply Hk. now left. }
  apply G; [|exact H].
  intros ik Hik. simpl in Hik.
  destruct Hik as [<-|[<-|[<-|[<-|[]]]]]; simpl; auto.
Qed.

Lemma stem_keys_shape :
  forall paths : dict,
    map fst paths = STEM_KEYS ->
    exists a b c d,
      paths = [(u "vocals", a); (u "drums", b); (u "bass", c); (u "other", d)].
Proof.
  intros paths K.
  destruct paths as [|[k1 v1] [|[k2 v2] [|[k3 v3] [|[k4 v4] [|]]]]]; try discriminate K.
  unfold STEM_KEYS in K. cbn [map fst] in K. injection K as -> -> -> ->.
  now exists v1, v2, v3, v4.
Qed.

Lemma stem_keys_present :
  forall (paths : dict) key,
    map fst paths = STEM_KEYS -> In key STEM_KEYS -> dict_get key paths <> None.
Proof.
  intros paths key K Hk. destruct (stem_keys_shape paths K) as [a [b [c [d ->]]]].
  destruct Hk as [<-|[<-|[<-|[<-|[]]]]]; discriminate.
Qed.

(** What [find_stems] returns, in terms of the listing. *)
Lemma find_stems_value :
  forall U stems_dir w,
    let wavs := glob_wav (w_fs w) stems_dir in
    let named := fold_left (fun paths w => assign_keys U w paths) wavs no_stems in
    find_stems U stems_dir w =
      (Ok (if negb (existsb truthy (map snd named)) &&
              negb (match wavs with [] => true | _ => false end)
           then assign_by_position wavs named
           else named),
       logged (EvInspect stems_dir) w).
Proof. reflexivity. Qed.

Lemma find_stems_result_keys :
  forall U stems_dir w paths w',
    find_stems U stems_dir w = (Ok paths, w') -> map fst paths = STEM_KEYS.
Proof.
  intros U stems_dir w paths w' H. rewrite find_stems_value in H.
  injection H as <- _.
  destruct (_ && _).
  - apply assign_by_position_keys. now apply assign_all_keys.
  - now apply assign_all_keys.
Qed.


Lemma assign_keys_get :
  forall U w paths key,
    In key STEM_KEYS ->
    dict_get key (assign_keys U w paths) =
      if contains key (Unicode.lower U (stem w))
      then Some (Some (to_str w))
      else dict_get key paths.
Proof.
  intros U w paths key Hin. unfold assign_keys.
  set (nm := Unicode.lower U (stem w)).
  unfold STEM_KEYS in *. cbn [fold_left].
  destruct Hin as [<-|[<-|[<-|[<-|[]]]]];
    repeat match goal with
           | |- context [if contains ?k nm then _ else _] => destruct (contains k nm)
           end;
    repeat first [ rewrite dict_get_set_same; reflexivity
                 | rewrite dict_get_set_other by distinct_keys
                 | reflexivity ].
Qed.

Lemma assign_all_get_none :
  forall U wavs paths key,
    In key STEM_KEYS ->
    (forall g, In g wavs -> contains key (Unicode.lower U (stem g)) = false) ->
    dict_get key (fold_left (fun paths w => assign_keys U w paths) wavs paths)
      = dict_get key paths.
Proof.
  intros U wavs. induction wavs as [|w wavs IH]; intros paths key Hk Hno; simpl; [reflexivity|].
  rewrite IH by (auto; intros; apply Hno; now right).
  rewrite (assign_keys_get U w paths key Hk), Hno; [reflexivity | now left].
Qed.

Lemma assign_all_get_last :
  forall U l1 f l2 paths key,
    In key STEM_KEYS ->
    contains key (Unicode.lower U (stem f)) = true ->
    (forall g, In g l2 -> contains key (Unicode.lower U (stem g)) = false) ->
    dict_get key (fold_left (fun paths w => assign_keys U w paths) (l1 ++ f :: l2) paths)
      = Some (Some (to_str f)).
Proof.
  intros U l1 f l2 paths key Hk Hf Hno.
  rewrite fold_left_app. cbn [fold_left].
  rewrite (assign_all_get_none U l2 _ key Hk Hno).
  now rewrite (assign_keys_get U f _ key Hk), Hf.
Qed.

Lemma to_str_nonempty : forall p, to_str p <> [].
Proof. intros [|c p]; discriminate. Qed.

Lemma truthy_exists :
  forall (paths : dict) key v,
    dict_get key paths = Some (Some v) -> v <> [] ->
    existsb truthy (map snd paths) = true.
Proof.
  intros paths key v. induction paths as [|[k x] paths IH]; intros H Hv; simpl in *.
  - discriminate.
  - destruct (eqb key k).
    + injection H as ->. destruct v; [contradiction | reflexivity].
    + rewrite (IH H Hv). apply orb_true_r.
Qed.

Lemma last_match :
  forall (f : path -> bool) l x,
    In x l -> f x = true ->
    exists l1 y l2, l = l1 ++ y :: l2 /\ f y = true /\ forall g, In g l2 -> f g = false.
Proof.
  intros f l. induction l as [|a l IH]; intros x Hin Hx; [contradiction|].
  destruct (existsb f l) eqn:E.
  - apply existsb_exists in E as [z [Hz Hfz]].
    destruct (IH z Hz Hfz) as [l1 [y [l2 [-> [Hy Hl2]]]]].
    exists (a :: l1), y, l2. auto.
  - exists [], a, l. split; [reflexivity|].
    assert (Hl : forall g, In g l -> f g = false).
    { intros g Hg. destruct (f g) eqn:G; [|reflexivity].
      assert (existsb f l = true) by (apply existsb_exists; eauto). congruence. }
    split; [|exact Hl].
    destruct Hin as [->|Hin]; [exact Hx|]. rewrite (Hl x Hin) in Hx. discriminate.
Qed.

(** X5: when several files match a key, the last one in listing order gets the
    slot. *)
Theorem find_stems_last_match_wins :
  forall U stems_dir w key l1 f l2,
    In key STEM_KEYS ->
    glob_wav (w_fs w) stems_dir = l1 ++ f :: l2 ->
    contains key (Unicode.lower U (stem f)) = true ->
    (forall g, In g l2 -> contains key (Unicode.lower U (stem g)) = false) ->
    exists paths,
      fst (find_stems U stems_dir w) = Ok paths /\
      dict_get key paths = Some (Some (to_str f)).
Proof.
  intros U stems_dir w key l1 f l2 Hk Hl Hf Hno.
  rewrite find_stems_value. cbn [fst]. rewrite Hl.
  pose proof (assign_all_get_last U l1 f l2 no_stems key Hk Hf Hno) as G.
  rewrite (truthy_exists _ key _ G (to_str_nonempty f)). cbn [negb andb].
  eexists. split; [reflexivity | exact G].
Qed.

(** X6: the ordinal fallback is all or nothing: as soon as one file matches one
    key by name, a key that no file matches stays [None], however many files
    there are. *)
Theorem find_stems_no_partial_fallback :
  forall U stems_dir w key0 f key,
    In key0 STEM_KEYS ->
    In f (glob_wav (w_fs w) stems_dir) ->
    contains key0 (Unicode.lower U (stem f)) = true ->
    In key STEM_KEYS ->
    (forall g, In g (glob_wav (w_fs w) stems_dir) ->
               contains key (Unicode.lower U (stem g)) = false) ->
    exists paths,
      fst (find_stems U stems_dir w) = Ok paths /\
      dict_get key paths = Some None.
Proof.
  intros U stems_dir w key0 f key Hk0 Hf Hm Hk Hno.
  rewrite find_stems_value. cbn [fst].
  destruct (last_match (fun g => contains key0 (Unicode.lower U (stem g))) _ f Hf Hm)
    as [l1 [y [l2 [Hl [Hy Hl2]]]]].
  pose proof (assign_all_get_none U _ no_stems key Hk Hno) as N.
  revert N Hno. rewrite Hl. intros N Hno.
  pose proof (assign_all_get_last U l1 y l2 no_stems key0 Hk0 Hy Hl2) as G.
  rewrite (truthy_exists _ key0 _ G (to_str_nonempty y)). cbn [negb andb].
  eexists. split; [reflexivity|]. rewrite N.
  destruct Hk as [<-|[<-|[<-|[<-|[]]]]]; reflexivity.
Qed.

Lemma listed_set :
  forall wavs paths k x,
    listed wavs paths ->
    (forall v, x = Some v -> exists p, In p wavs /\ v = to_str p) ->
    listed wavs (dict_set k x paths).
Proof.
  intros wavs paths k x Hl Hx k' v H. rewrite dict_get_set in H.
  destruct (eqb k k'); [|now apply (Hl k')].
  injection H as H. now apply Hx.
Qed.

Lemma listed_assign_keys :
  forall U wavs w paths,
    In w wavs -> listed wavs paths -> listed wavs (assign_keys U w paths).
Proof.
  intros U wavs w paths Hw. unfold assign_keys.
  generalize STEM_KEYS as keys. intro keys. revert paths.
  induction keys as [|k keys IH]; intros paths Hl; simpl; [exact Hl|].
  apply IH. destruct (contains k _); [|exact Hl].
  apply listed_set; [exact Hl|]. intros v E. injection E as <-. eauto.
Qed.

Lemma listed_assign_all :
  forall U wavs ws paths,
    (forall x, In x ws -> In x wavs) -> listed wavs paths ->
    listed wavs (fold_left (fun paths w => assign_keys U w paths) ws paths).
Proof.
  intros U wavs ws. induction ws as [|x ws IH]; intros paths Hs Hl; simpl; [exact Hl|].
  apply IH; [intros; apply Hs; now right|].
  apply listed_assign_keys; [apply Hs; now left | exact Hl].
Qed.

Lemma listed_assign_by_position :
  forall wavs paths, listed wavs paths -> listed wavs (assign_by_position wavs paths).
Proof.
  intros wavs paths. unfold assign_by_position.
  generalize (enumerate_from 0 STEM_KEYS) as iks. intro iks. revert paths.
  induction iks as [|ik iks IH]; intros paths Hl; simpl; [exact Hl|].
  apply IH. destruct (Nat.ltb _ _); [|exact Hl].
  apply listed_set; [exact Hl|]. intros v E.
  destruct (nth_error (sorted wavs) (fst ik)) as [p|] eqn:N; [|discriminate].
  injection E as <-. exists p. split; [|reflexivity].
  apply nth_error_In in N.
  apply (Permutation_in _ (Permutation_sym (sorted_perm wavs)) N).
Qed.

(** X7: a path that [find_stems] reports is always the path of an entry of the
    stems directory whose name ends in [.wav]. *)
Theorem find_stems_values_listed :
  forall U stems_dir w paths key v,
    fst (find_stems U stems_dir w) = Ok paths ->
    dict_get key paths = Some (Some v) ->
    exists nm,
      is_wav nm = true /\
      exists_ (w_fs w) (child stems_dir nm) = true /\
      v = to_str (child stems_dir nm).
Proof.
  intros U stems_dir w paths key v H G.
  rewrite find_stems_value in H. cbn [fst] in H. injection H as <-.
  assert (L0 : listed (glob_wav (w_fs w) stems_dir) no_stems).
  { intros k x E. simpl in E.
    repeat (destruct (eqb k _); [discriminate|]). discriminate. }
  pose proof (listed_assign_all U _ _ no_stems (fun x Hx => Hx) L0) as L1.
  assert (L : exists p, In p (glob_wav (w_fs w) stems_dir) /\ v = to_str p).
  { destruct (_ && _).
    - apply (listed_assign_by_position _ _ L1 key v G).
    - apply (L1 key v G). }
  destruct L as [p [Hp ->]]. unfold glob_wav, names in Hp.
  destruct (lookup stems_dir (w_fs w)) as [[x|x|es]|] eqn:E; try contradiction.
  apply in_map_iff in Hp as [nm [<- Hnm]]. apply filter_In in Hnm as [Hin Hwav].
  exists nm. split; [exact Hwav|]. split; [|reflexivity].
  unfold exists_, child. rewrite lookup_app, E. simpl.
  apply in_map_iff in Hin as [[k n] [Hk Hin]]. simpl in Hk. subst k.
  clear E. induction es as [|[k' n'] es IH]; [contradiction|]. simpl.
  destruct (eqb nm k') eqn:Q; [reflexivity|].
  destruct Hin as [Hin|Hin]; [|auto].
  injection Hin as -> _. rewrite eqb_refl in Q. discriminate Q.
Qed.

Lemma assign_by_position_first :
  forall wavs paths,
    wavs <> [] ->
    exists p, In p wavs /\
              dict_get (u "vocals") (assign_by_position wavs paths) = Some (Some (to_str p)).
Proof.
  intros wavs paths Hne. unfold assign_by_position.
  set (l := sorted wavs).
  assert (Hl : exists p r, l = p :: r).
  { pose proof (Permutation_length (sorted_perm wavs)) as E. fold l in E.
    destruct l as [|p r]; [|eauto]. destruct wavs; [contradiction | discriminate]. }
  destruct Hl as [p [r Hl]]. exists p. split.
  - apply (Permutation_in _ (Permutation_sym (sorted_perm wavs))).
    fold l. rewrite Hl. now left.
  - unfold STEM_KEYS. cbn [enumerate_from fold_left fst snd]. rewrite Hl.
    cbn [length nth_error option_map]. change (Nat.ltb 0 (S (length r))) with true.
    cbv iota.
    repeat match goal with
           | |- context [if Nat.ltb ?i ?n then _ else _] => destruct (Nat.ltb i n)
           end;
      repeat first [ rewrite dict_get_set_same; reflexivity
                   | rewrite dict_get_set_other by distinct_keys ].
Qed.

Lemma stems_some :
  forall U wavs,
    wavs <> [] ->
    let named := fold_left (fun paths w => assign_keys U w paths) wavs no_stems in
    exists key v,
      In key STEM_KEYS /\
      dict_get key
        (if negb (existsb truthy (map snd named)) &&
            negb (match wavs with [] => true | _ => false end)
         then assign_by_position wavs named
         else named) = Some (Some v).
Proof.
  intros U wavs Hne named.
  assert (K : map fst named = STEM_KEYS) by (now apply assign_all_keys).
  destruct (existsb truthy (map snd named)) eqn:T.
  - cbn [negb andb].
    destruct (stem_keys_shape named K) as [a [b [c [d E]]]]. rewrite E in *.
    simpl in T.
    destruct (truthy a) eqn:Ta.
    { exists (u "vocals"). destruct a as [[|x s]|]; try discriminate Ta.
      eexists. split; [simpl; auto | reflexivity]. }
    destruct (truthy b) eqn:Tb.
    { exists (u "drums"). destruct b as [[|x s]|]; try discriminate Tb.
      eexists. split; [simpl; auto | reflexivity]. }
    destruct (truthy c) eqn:Tc.
    { exists (u "bass"). destruct c as [[|x s]|]; try discriminate Tc.
      eexists. split; [simpl; auto | reflexivity]. }
    destruct (truthy d) eqn:Td; [|discriminate T].
    exists (u "other"). destruct d as [[|x s]|]; try discriminate Td.
    eexists. split; [simpl; auto 6 | reflexivity].
  - assert (B : match wavs with [] => true | _ :: _ => false end = false)
      by (destruct wavs; [contradiction | reflexivity]).
    rewrite B. cbn [negb andb].
    destruct (assign_by_position_first wavs named Hne) as [p [_ G]].
    exists (u "vocals"), (to_str p). split; [simpl; auto | exact G].
Qed.

(** X8: a directory with at least one [.wav] entry always gives at least one
    stem: some key gets a path. *)
Theorem find_stems_some_stem :
  forall U stems_dir w,
    glob_wav (w_fs w) stems_dir <> [] ->
    exists paths key v,
      fst (find_stems U stems_dir w) = Ok paths /\
      In key STEM_KEYS /\
      dict_get key paths = Some (Some v).
Proof.
  intros U stems_dir w Hne. rewrite find_stems_value. cbn [fst].
  destruct (stems_some U _ Hne) as [key [v [Hk G]]].
  eexists. exists key, v. split; [reflexivity|]. split; assumption.
Qed.

Lemma find_stems_last_match_wins_witness :
  In (u "vocals") STEM_KEYS /\
  exists paths,
    fst (find_stems Unicode.latin1_only [u "takes"] takes_world) = Ok paths /\
    dict_get (u "vocals") paths = Some (Some (u "/takes/Vocals_B.wav")).
Proof.
  assert (H1 : In (u "vocals") STEM_KEYS) by (simpl; auto).
  split; [exact H1|].
  apply (find_stems_last_match_wins Unicode.latin1_only [u "takes"] takes_world (u "vocals")
           [[u "takes"; u "vocals_a.wav"]; [u "takes"; u "drums.wav"]]
           [u "takes"; u "Vocals_B.wav"]
           [[u "takes"; u "extra.wav"]] H1).
  - reflexivity.
  - reflexivity.
  - intros g [<-|[]]. reflexivity.
Defined.

Lemma find_stems_no_partial_fallback_witness :
  In (u "bass") STEM_KEYS /\
  exists paths,
    fst (find_stems Unicode.latin1_only [u "takes"] takes_world) = Ok paths /\
    dict_get (u "bass") paths = Some None.
Proof.
  assert (H0 : In (u "drums") STEM_KEYS) by (simpl; auto).
  assert (H1 : In (u "bass") STEM_KEYS) by (simpl; auto).
  split; [exact H1|].
  apply (find_stems_no_partial_fallback Unicode.latin1_only [u "takes"] takes_world
           (u "drums") [u "takes"; u "drums.wav"] (u "bass") H0).
  - simpl. auto.
  - reflexivity.
  - exact H1.
  - intros g Hg. destruct Hg as [<-|[<-|[<-|[<-|[]]]]]; reflexivity.
Defined.

Lemma find_stems_values_listed_witness :
  fst (find_stems Unicode.latin1_only [u "takes"] takes_world) =
    Ok [(u "vocals", Some (u "/takes/Vocals_B.wav"));
        (u "drums", Some (u "/takes/drums.wav"));
        (u "bass", None); (u "other", None)] /\
  exists nm,
    is_wav nm = true /\
    exists_ (w_fs takes_world) (child [u "takes"] nm) = true /\
    u "/takes/drums.wav" = to_str (child [u "takes"] nm).
Proof.
  assert (H : fst (find_stems Unicode.latin1_only [u "takes"] takes_world) =
              Ok [(u "vocals", Some (u "/takes/Vocals_B.wav"));
                  (u "drums", Some (u "/takes/drums.wav"));
                  (u "bass", None); (u "other", None)]) by reflexivity.
  split; [exact H|].
  apply (find_stems_values_listed Unicode.latin1_only [u "takes"] takes_world _
           (u "drums") (u "/takes/drums.wav") H).
  reflexivity.
Defined.

Lemma find_stems_some_stem_witness :
  glob_wav (w_fs stems_world) [u "plain"] <> [] /\
  exists paths key v,
    fst (find_stems Unicode.latin1_only [u "plain"] stems_world) = Ok paths /\
    In key STEM_KEYS /\
    dict_get key paths = Some (Some v).
Proof.
  assert (H : glob_wav (w_fs stems_world) [u "plain"] <> []) by discriminate.
  split; [exact H|].
  exact (find_stems_some_stem Unicode.latin1_only [u "plain"] stems_world H).
Defined.

(** ** More on the Separation Invoker *)



Lemma resolve_model_dir_fs :
  forall model_name out_root w d w',
    resolve_model_dir model_name out_root w = (Ok d, w') -> w_fs w' = w_fs w.
Proof.
  intros model out w d w' H. unfold resolve_model_dir in H.
  apply bind_ok in H as [present [w1 [Hp H]]].
  unfold path_exists in Hp. injection Hp as _ <-.
  destruct present; simpl in H; [now injection H as _ <-|].
  apply bind_ok in H as [entries [w2 [Hi H]]].
  apply bind_ok in H as [subdirs [w3 [Ho H]]].
  apply path_iterdir_ok in Hi as [Fi _]. apply only_dirs_ok in Ho as [Fo _].
  destruct subdirs as [|x l]; [discriminate|].
  injection H as _ <-. now rewrite Fo, Fi.
Qed.

Lemma contains_audio_glob :
  forall fs d, LocatorSpec.contains_audio fs d = true -> glob_wav fs d <> [].
Proof.
  intros fs d H E. rewrite <- glob_wav_nonempty, E in H. discriminate.
Qed.

Lemma locate_stems_has_wav :
  forall model_dir w d w',
    locate_stems model_dir w = (Ok d, w') ->
    w_fs w' = w_fs w /\ glob_wav (w_fs w) d <> [].
Proof.
  intros md w d w' H. unfold locate_stems in H.
  apply bind_ok in H as [entries [w1 [Hi H]]].
  apply bind_ok in H as [children [w2 [Ho H]]].
  apply bind_ok in H as [found [w3 [Hf H]]].
  apply path_iterdir_ok in Hi as [Fi _]. apply only_dirs_ok in Ho as [Fo _].
  destruct (first_child_with_wav_spec children w2) as [Sf Ff].
  rewrite Hf in Sf, Ff. simpl in Sf, Ff. injection Sf as Sf.
  assert (F3 : w_fs w3 = w_fs w) by (now rewrite Ff, Fo, Fi).
  destruct found as [c|].
  - injection H as <- <-. split; [exact F3|].
    symmetry in Sf. apply find_some in Sf as [_ Sf].
    rewrite Fo, Fi in Sf. now apply contains_audio_glob.
  - apply bind_ok in H as [here [w4 [Hg H]]].
    unfold path_glob_wav in Hg. injection Hg as Hg <-.
    destruct here as [|x l].
    + apply bind_ok in H as [deep [w5 [Hr H]]].
      unfold path_rglob_wav in Hr. injection Hr as Hr <-. simpl in Hr.
      destruct deep as [|p l]; [discriminate|].
      injection H as <- <-. split; [exact F3|].
      rewrite F3 in Hr.
      assert (Hp : In p (rglob_wav (w_fs w) md)) by (rewrite Hr; now left).
      unfold rglob_wav in Hp.
      destruct (lookup md (w_fs w)) as [[y|y|es]|]; try contradiction.
      apply in_flat_map in Hp as [q [_ Hp]].
      destruct (In_glob_wav _ _ _ Hp) as [nm E].
      unfold parent. rewrite E, removelast_last.
      intro Z. rewrite Z in Hp. contradiction.
    + injection H as <- <-. split; [exact F3|].
      rewrite F3 in Hg. rewrite Hg. discriminate.
Qed.

Lemma locate_output_has_wav :
  forall model out_root w d w',
    locate_output model out_root w = (Ok d, w') -> glob_wav (w_fs w') d <> [].
Proof.
  intros model out w d w' H. unfold locate_output in H.
  apply bind_ok in H as [md [w2 [Hm Hs]]].
  apply locate_stems_has_wav in Hs as [F G]. now rewrite F.
Qed.

(** X10: the directory [run_demucs] returns always holds, directly, at least one
    entry whose name ends in [.wav], lies strictly inside the output root,
    and is only returned for a supported model. *)
Theorem run_demucs_returns_audio_dir :
  forall U input_path model_name use_gpu out_root w d w',
    run_demucs U input_path model_name use_gpu out_root w = (Ok d, w') ->
    In model_name DEMUCS_MODELS /\
    inside out_root d /\
    glob_wav (w_fs w') d <> [].
Proof.
  intros U input model gpu out w d w' H.
  pose proof (run_demucs_ok _ _ _ _ _ _ _ _ H) as [Hin [w1 Hloc]].
  split; [exact Hin|]. split; [now apply (locate_output_inside model out w1 d w')|].
  now apply (locate_output_has_wav model out w1).
Qed.


Lemma run_demucs_returns_audio_dir_witness :
  run_demucs Unicode.latin1_only [u "in.wav"] (u "htdemucs") false [u "out"] ready_world
    = (Ok [u "out"; u "htdemucs"; u "track1"],
       snd (run_demucs Unicode.latin1_only [u "in.wav"] (u "htdemucs") false [u "out"]
              ready_world)) /\
  inside [u "out"] [u "out"; u "htdemucs"; u "track1"] /\
  glob_wav (w_fs ready_world) [u "out"; u "htdemucs"; u "track1"] <> [].
Proof.
  assert (H : run_demucs Unicode.latin1_only [u "in.wav"] (u "htdemucs") false [u "out"]
                ready_world
              = (Ok [u "out"; u "htdemucs"; u "track1"],
                 snd (run_demucs Unicode.latin1_only [u "in.wav"] (u "htdemucs") false
                        [u "out"] ready_world))) by reflexivity.
  split; [exact H|].
  destruct (run_demucs_returns_audio_dir _ _ _ _ _ _ _ _ H) as [_ [A B]].
  split; [exact A | exact B].
Defined.

(** ** More file-system facts *)

Lemma put_same : forall c ch es, assoc c es = Some ch -> put c ch es = es.
Proof.
  intros c ch es. induction es as [|[k v] es IH]; intro H; simpl in *; [discriminate|].
  destruct (eqb c k) eqn:E.
  - apply eqb_eq in E. subst k. now injection H as ->.
  - now rewrite IH.
Qed.

Lemma mkdirs_existing : forall p n, is_dir n p = true -> mkdirs p n = Some n.
Proof.
  induction p as [|c p IH]; intros n H; unfold is_dir in H.
  - simpl in H. destruct n; try discriminate. reflexivity.
  - simpl in H. destruct n as [x|x|es]; try discriminate.
    destruct (assoc c es) as [ch|] eqn:E; [|discriminate].
    cbn [mkdirs]. rewrite E. rewrite (IH ch) by exact H.
    now rewrite (put_same c ch es E).
Qed.

Lemma lookup_prefix_dir :
  forall p q n x, lookup (p ++ q) n = Some x -> q <> [] -> is_dir n p = true.
Proof.
  intros p q n x H Hq. rewrite lookup_app in H. unfold is_dir.
  destruct (lookup p n) as [[y|y|es]|]; try discriminate; try reflexivity;
    destruct q; try contradiction; discriminate.
Qed.

(** Writing below one entry of a directory leaves the other entries as they
    were. *)
Lemma set_keeps_sibling :
  forall a c r1 c' r2 v n n',
    set (a ++ c :: r1) v n = Some n' ->
    c <> c' ->
    lookup (a ++ c' :: r2) n' = lookup (a ++ c' :: r2) n.
Proof.
  induction a as [|x a IH]; intros c r1 c' r2 v n n' H Hne.
  - simpl app in *. destruct n as [y|y|es]; try (simpl in H; discriminate).
    assert (E : exists ch', n' = Dir (put c ch' es)).
    { simpl in H. destruct r1.
      - injection H as <-. eauto.
      - destruct (assoc c es); [|discriminate].
        destruct (set _ _ _); [|discriminate]. injection H as <-. eauto. }
    destruct E as [ch' ->]. simpl. now rewrite assoc_put_other.
  - change ((x :: a) ++ c :: r1) with (x :: (a ++ c :: r1)) in H.
    change ((x :: a) ++ c' :: r2) with (x :: (a ++ c' :: r2)).
    destruct n as [y|y|es]; try (simpl in H; discriminate).
    rewrite set_cons in H by (destruct a; discriminate).
    destruct (assoc x es) as [ch|] eqn:E; [|discriminate].
    destruct (set (a ++ c :: r1) v ch) as [ch'|] eqn:S; [|discriminate].
    injection H as <-. cbn [lookup]. rewrite assoc_put_same, E.
    now apply (IH c r1 c' r2 v ch ch').
Qed.

Lemma assoc_del_other :
  forall k k' es, k <> k' -> assoc k' (del k es) = assoc k' es.
Proof.
  intros k k' es Hne. induction es as [|[k0 v0] es IH]; simpl; [reflexivity|].
  destruct (eqb k k0) eqn:E; simpl.
  - apply eqb_eq in E. subst k0.
    assert (eqb k' k = false) as -> by (apply eqb_neq; congruence). exact IH.
  - now rewrite IH.
Qed.

(** Removing a tree leaves every regular file outside it where it was. *)
Lemma remove_keeps_outside :
  forall p n q x,
    lookup q n = Some x -> regular x ->
    (forall r, q <> p ++ r) ->
    lookup q (remove p n) = Some x.
Proof.
  induction p as [|c p IH]; intros n q x Hq Hx Hout.
  - exfalso. now apply (Hout q).
  - destruct n as [y|y|es]; try exact Hq.
    destruct q as [|c' q]; [simpl in Hq; injection Hq as <-; contradiction|].
    simpl in Hq. destruct (assoc c' es) as [ch|] eqn:E; [|discriminate].
    destruct p as [|y p].
    + assert (c <> c') by (intros ->; now apply (Hout q)).
      simpl. now rewrite assoc_del_other, E.
    + cbn [remove]. destruct (assoc c es) as [ch0|] eqn:E0.
      * cbn [lookup]. destruct (eqb c c') eqn:Q.
        -- apply eqb_eq in Q. subst c'. rewrite assoc_put_same.
           rewrite E in E0. injection E0 as <-.
           apply IH; try assumption. intros r ->. now apply (Hout r).
        -- apply eqb_neq in Q. now rewrite assoc_put_other, E.
      * cbn [lookup]. now rewrite E.
Qed.

(** Removing a tree creates nothing. *)
Lemma remove_creates_nothing :
  forall p n q, lookup q n = None -> lookup q (remove p n) = None.
Proof.
  induction p as [|c p IH]; intros n q H; [exact H|].
  destruct n as [y|y|es]; try exact H.
  destruct q as [|c' q]; [discriminate|].
  destruct p as [|y p].
  - simpl in *. destruct (eqb c c') eqn:Q.
    + apply eqb_eq in Q. subst c'. now rewrite assoc_del.
    + apply eqb_neq in Q. now rewrite assoc_del_other.
  - cbn [remove]. destruct (assoc c es) as [ch0|] eqn:E0; [|exact H].
    cbn [lookup] in *. destruct (eqb c c') eqn:Q.
    + apply eqb_eq in Q. subst c'. rewrite assoc_put_same. rewrite E0 in H.
      now apply IH.
    + apply eqb_neq in Q. now rewrite assoc_put_other.
Qed.

(** ** More on Cleanup *)

Lemma safe_rmtree_fs :
  forall p w,
    w_fs (snd (safe_rmtree p w)) =
      match lookup p (w_fs w) with
      | Some (Dir _) => remove p (w_fs w)
      | _ => w_fs w
      end.
Proof.
  intros p w. unfold safe_rmtree, try_except, shutil_rmtree.
  destruct (lookup p (w_fs w)) as [[x|x|es]|]; reflexivity.
Qed.

(** X11: [safe_rmtree path] removes the tree of a directory and nothing else: a
    directory other than the root is gone afterwards, every regular file
    outside [path] is still there, and a [path] that names a regular file
    is left in place. *)
Theorem safe_rmtree_scope :
  forall p w,
    let fs' := w_fs (snd (safe_rmtree p w)) in
    (is_dir (w_fs w) p = true -> p <> [] -> exists_ fs' p = false) /\
    (forall q x, lookup q (w_fs w) = Some x -> regular x ->
                 (forall r, q <> p ++ r) -> lookup q fs' = Some x) /\
    (forall x, lookup p (w_fs w) = Some x -> regular x -> fs' = w_fs w).
Proof.
  intros p w fs'. subst fs'. rewrite safe_rmtree_fs. split; [|split].
  - intros Hd Hp. unfold is_dir in Hd. unfold exists_.
    destruct (lookup p (w_fs w)) as [[x|x|es]|]; try discriminate.
    now rewrite lookup_remove.
  - intros q x Hq Hx Hout.
    destruct (lookup p (w_fs w)) as [[y|y|es]|]; try exact Hq.
    now apply remove_keeps_outside.
  - intros x Hx Hr. rewrite Hx. destruct x; [reflexivity | reflexivity | contradiction].
Qed.

Lemma safe_rmtree_scope_witness :
  is_dir (w_fs stems_world) [u "plain"] = true /\
  exists_ (w_fs (snd (safe_rmtree [u "plain"] stems_world))) [u "plain"] = false /\
  lookup [u "mixed"; u "bass_and_drums.wav"]
    (w_fs (snd (safe_rmtree [u "plain"] stems_world))) = Some (File [3%N]) /\
  w_fs (snd (safe_rmtree [u "plain"; u "voice.wav"] stems_world)) = w_fs stems_world.
Proof.
  assert (H : is_dir (w_fs stems_world) [u "plain"] = true) by reflexivity.
  split; [exact H|].
  destruct (safe_rmtree_scope [u "plain"] stems_world) as [A [B _]].
  destruct (safe_rmtree_scope [u "plain"; u "voice.wav"] stems_world) as [_ [_ C]].
  split; [apply A; [exact H | discriminate]|]. split.
  - apply B; [reflexivity | exact I|]. intros r E. discriminate E.
  - apply (C (File [1%N])); [reflexivity | exact I].
Defined.

(** X12: cleaning twice is the same as cleaning once. *)
Theorem safe_rmtree_idempotent :
  forall p w,
    w_fs (snd (safe_rmtree p (snd (safe_rmtree p w)))) = w_fs (snd (safe_rmtree p w)).
Proof.
  intros p w. rewrite (safe_rmtree_fs p (snd (safe_rmtree p w))).
  rewrite (safe_rmtree_fs p w).
  destruct (lookup p (w_fs w)) as [[x|x|es]|] eqn:E; try (now rewrite E).
  destruct p as [|c p].
  - simpl in E. injection E as E. simpl. now rewrite E.
  - now rewrite lookup_remove.
Qed.

(** ** The errors of the pipeline *)


















(** ** The state a successful run leaves *)

Lemma mkdtemp_loop_fresh :
  forall dir prefix cands w p w',
    mkdtemp_loop dir prefix cands w = (Ok p, w') ->
    exists r, In r cands /\ p = dir ++ [prefix ++ r] /\ lookup p (w_fs w) = None.
Proof.
  intros dir prefix cands. induction cands as [|r rest IH]; intros w p w' H; simpl in H.
  - discriminate.
  - destruct (lookup dir (w_fs w)) as [[d|z|es]|] eqn:L; try discriminate.
    destruct (assoc (prefix ++ r) es) eqn:A.
    + destruct (IH _ _ _ H) as [r0 [Hin [E N0]]]. exists r0. simpl in N0.
      split; [now right | split; assumption].
    + destruct (set (child dir (prefix ++ r)) (Dir []) (w_fs w)); [|discriminate].
      injection H as <- _. exists r. split; [now left|]. split; [reflexivity|].
      now apply (lookup_fresh_child _ _ es).
Qed.

Lemma shutil_make_archive_state :
  forall base root w z w',
    shutil_make_archive base root w = (Ok z, w') ->
    exists es fs1,
      z = archive_path base /\
      lookup root (w_fs w) = Some (Dir es) /\
      mkdirs (removelast z) (w_fs w) = Some fs1 /\
      set z (ZipFile (Dir es)) fs1 = Some (w_fs w').
Proof.
  intros base root w z w' H. unfold shutil_make_archive in H.
  destruct (lookup root (w_fs w)) as [[x|x|es]|]; try discriminate.
  destruct (mkdirs (removelast (archive_path base)) (w_fs w)) as [fs1|] eqn:M;
    [|discriminate].
  destruct (set (archive_path base) (ZipFile (Dir es)) fs1) as [fs2|] eqn:S; [|discriminate].
  injection H as <- <-. exists es, fs1. auto.
Qed.

Lemma glob_wav_lookup :
  forall fs fs' d, lookup d fs' = lookup d fs -> glob_wav fs' d = glob_wav fs d.
Proof. intros fs fs' d H. unfold glob_wav, names. now rewrite H. Qed.

Lemma glob_wav_is_dir :
  forall fs d, glob_wav fs d <> [] -> exists es, lookup d fs = Some (Dir es).
Proof.
  intros fs d H. unfold glob_wav, names in H.
  destruct (lookup d fs) as [[x|x|es]|]; try (exfalso; now apply H). eauto.
Qed.

Lemma zip_name_not_separated : forall s : str, s ++ u ".zip" <> u "separated".
Proof.
  intros s E. apply (f_equal (@rev N)) in E. rewrite rev_app_distr in E.
  vm_compute in E. discriminate E.
Qed.

Lemma separate_core_ok_inv :
  forall U file_path model use_gpu w zip_path workdir stems_dir w',
    separate_core U file_path model use_gpu w = (Ok (zip_path, workdir, stems_dir), w') ->
    In model DEMUCS_MODELS /\
    (exists r, In r (w_rand w) /\ workdir = w_tmpdir w ++ [u "demucs_work_" ++ r]) /\
    lookup workdir (w_fs w) = None /\
    zip_path = workdir ++ [slugify_basename U (name file_path) (u "input") ++ u ".zip"] /\
    glob_wav (w_fs w') stems_dir <> [] /\
    exists es, lookup stems_dir (w_fs w') = Some (Dir es) /\
               lookup zip_path (w_fs w') = Some (ZipFile (Dir es)).
Proof.
  intros U file model gpu w zip workdir stems w' E.
  unfold separate_core in E.
  apply bind_ok in E as [ffmpeg [w1 [E1 E]]].
  assert (W1 : w1 = logged (EvWhich (u "ffmpeg")) w).
  { unfold ensure_ffmpeg_in_path, bind, shutil_which, ret in E1. now injection E1 as _ <-. }
  destruct ffmpeg; [|discriminate]. cbn [negb] in E.
  apply bind_ok in E as [wd [w2 [Htmp E]]].
  apply bind_ok in E as [[] [w3 [_ E]]].
  apply bind_ok in E as [[] [w4 [_ E]]].
  apply bind_ok in E as [[] [w5 [_ E]]].
  apply bind_ok in E as [sd [w6 [Hrun E]]].
  apply bind_ok in E as [zp [w7 [Hzip E]]].
  injection E as -> -> -> ->.
  unfold tempfile_mkdtemp in Htmp. apply mkdtemp_loop_fresh in Htmp as [r [Hr [Hwd Hfresh]]].
  rewrite W1 in Hr, Hwd, Hfresh. cbn [w_tmpdir w_rand w_fs logged] in Hr, Hwd, Hfresh.
  apply run_demucs_ok in Hrun as [Hin [w0 Hloc]].
  pose proof (locate_output_has_wav _ _ _ _ _ Hloc) as Hwav.
  apply (locate_output_inside _ _ _ _ _ Hin) in Hloc as [rest [Hrest Hst]].
  change (joinpath workdir (u "separated")) with (workdir ++ [u "separated"]) in Hst.
  rewrite <- app_assoc in Hst. simpl in Hst.
  unfold zip_dir in Hzip.
  apply shutil_make_archive_state in Hzip as [es [fs1 [Hz [Hroot [Hmk Hset]]]]].
  rewrite (joinpath_component _ _ (slug_component U (name file))) in Hz.
  rewrite archive_path_child in Hz.
  set (zn := slugify_basename U (name file) (u "input") ++ u ".zip") in *.
  assert (Hdir : is_dir (w_fs w6) workdir = true).
  { apply (lookup_prefix_dir workdir (u "separated" :: rest) _ (Dir es)); [|discriminate].
    now rewrite <- Hst. }
  rewrite Hz, removelast_last, (mkdirs_existing _ _ Hdir) in Hmk. injection Hmk as <-.
  assert (Hkeep : lookup stems (w_fs w') = lookup stems (w_fs w6)).
  { rewrite Hst. rewrite Hz in Hset.
    apply (set_keeps_sibling workdir zn [] (u "separated") rest _ _ _ Hset).
    apply zip_name_not_separated. }
  split; [exact Hin|]. split; [exists r; split; assumption|]. split; [exact Hfresh|].
  split; [exact Hz|]. split; [now rewrite (glob_wav_lookup _ _ _ Hkeep)|].
  exists es. split; [now rewrite Hkeep|].
  apply (lookup_set_same _ _ _ _ Hset).
Qed.

(** X14: when [separate_core] returns, the model was a supported one, the work
    directory is [<tmp>/demucs_work_<name>] for a candidate name under which
    nothing existed before, the archive is [<workdir>/<safe_base>.zip], the
    stems directory still holds its [.wav] entries, and the archive holds
    the listing of the stems directory as it now stands. *)
Theorem separate_core_success_state :
  forall U file_path model use_gpu w zip_path workdir stems_dir w',
    separate_core U file_path model use_gpu w = (Ok (zip_path, workdir, stems_dir), w') ->
    In model DEMUCS_MODELS /\
    (exists r, In r (w_rand w) /\ workdir = w_tmpdir w ++ [u "demucs_work_" ++ r]) /\
    lookup workdir (w_fs w) = None /\
    zip_path = workdir ++ [slugify_basename U (name file_path) (u "input") ++ u ".zip"] /\
    glob_wav (w_fs w') stems_dir <> [] /\
    exists es, lookup stems_dir (w_fs w') = Some (Dir es) /\
               lookup zip_path (w_fs w') = Some (ZipFile (Dir es)).
Proof.
  intros U file model gpu w zip workdir stems w' E.
  exact (separate_core_ok_inv U file model gpu w zip workdir stems w' E).
Qed.

Lemma separate_core_success_state_witness :
  separate_core Unicode.latin1_only [u "in"; u "My Song.mp3"] (u "htdemucs") false
    studio_world
  = (Ok ([u "tmp"; u "demucs_work_abc"; u "my-song.zip"],
         [u "tmp"; u "demucs_work_abc"],
         studio_out),
     snd (separate_core Unicode.latin1_only [u "in"; u "My Song.mp3"] (u "htdemucs") false
            studio_world)) /\
  lookup [u "tmp"; u "demucs_work_abc"] (w_fs studio_world) = None /\
  glob_wav
    (w_fs (snd (separate_core Unicode.latin1_only [u "in"; u "My Song.mp3"] (u "htdemucs")
                  false studio_world)))
    studio_out <> [].
Proof.
  assert (H : separate_core Unicode.latin1_only [u "in"; u "My Song.mp3"] (u "htdemucs")
                false studio_world
              = (Ok ([u "tmp"; u "demucs_work_abc"; u "my-song.zip"],
                     [u "tmp"; u "demucs_work_abc"],
                     studio_out),
                 snd (separate_core Unicode.latin1_only [u "in"; u "My Song.mp3"]
                        (u "htdemucs") false studio_world)))
    by (vm_compute; reflexivity).
  split; [exact H|].
  destruct (separate_core_success_state _ _ _ _ _ _ _ _ _ H) as [_ [_ [A [_ [B _]]]]].
  split; [exact A | exact B].
Defined.

(** ** What a rejected request leaves on disk *)







(** ** The callers: the Gradio workflow and the web API *)

Lemma try_except_ok :
  forall A (m : M A) h w a w1, m w = (Ok a, w1) -> try_except m h w = (Ok a, w1).
Proof. intros A m h w a w1 H. unfold try_except. now rewrite H. Qed.

Lemma try_except_raise :
  forall A (m : M A) h w e w1, m w = (Raise e, w1) -> try_except m h w = h e w1.
Proof. intros A m h w e w1 H. unfold try_except. now rewrite H. Qed.

Lemma bind_raise :
  forall A B (m : M A) (k : A -> M B) w e w1,
    m w = (Raise e, w1) -> bind m k w = (Raise e, w1).
Proof. intros A B m k w e w1 H. unfold bind. now rewrite H. Qed.

Lemma rfind_none : forall c s, rfind c s = None -> ~ In c s.
Proof.
  intros c s. induction s as [|y s IH]; intros R I; [contradiction|].
  cbn [rfind] in R. destruct (rfind c s) eqn:R'; [discriminate R|].
  destruct (N.eqb y c) eqn:E; [discriminate R|]. apply N.eqb_neq in E.
  destruct I as [I|I]; [contradiction|]. now apply IH.
Qed.

Lemma rfind_some :
  forall c s i,
    rfind c s = Some i ->
    exists a b, s = a ++ c :: b /\ length a = i /\ ~ In c b.
Proof.
  intros c s. induction s as [|x s IH]; intros i H; [discriminate H|].
  cbn [rfind] in H. destruct (rfind c s) as [j|] eqn:R.
  - injection H as <-. destruct (IH j eq_refl) as [a [b [-> [L N]]]].
    exists (x :: a), b. split; [reflexivity|]. split; [simpl; now rewrite L|exact N].
  - destruct (N.eqb x c) eqn:E; [|discriminate H]. injection H as <-.
    apply N.eqb_eq in E. subst x. exists [], s. split; [reflexivity|]. split; [reflexivity|].
    now apply rfind_none.
Qed.

Lemma rfind_app_last :
  forall c a b, ~ In c b -> rfind c (a ++ c :: b) = Some (length a).
Proof.
  intros c a b N. induction a as [|x a IH].
  - cbn [app rfind length]. rewrite (rfind_absent c b N). now rewrite N.eqb_refl.
  - cbn [app rfind length]. now rewrite IH.
Qed.

(** A suffix is empty, or a dot followed by at least one character, none
    of them a dot. *)
Lemma suffix_of_shape :
  forall nm,
    suffix_of nm = [] \/
    exists t, suffix_of nm = dot :: t /\ t <> [] /\ ~ In dot t /\
              forall c, In c t -> In c nm.
Proof.
  intro nm. unfold suffix_of. destruct (rfind dot nm) as [i|] eqn:R; [|now left].
  destruct (Nat.ltb 0 i && Nat.ltb i (length nm - 1)) eqn:B; [|now left].
  right. destruct (rfind_some _ _ _ R) as [a [b [-> [L N]]]].
  apply andb_true_iff in B as [_ B]. apply Nat.ltb_lt in B.
  rewrite length_app in B. cbn [length] in B.
  exists b. subst i.
  assert (S : skipn (length a) (a ++ dot :: b) = dot :: b).
  { rewrite skipn_app, Nat.sub_diag, skipn_all. reflexivity. }
  rewrite S. split; [reflexivity|]. split.
  - intro E. subst b. cbn [length] in B. lia.
  - split; [exact N|]. intros c I. apply in_or_app. right. now right.
Qed.

Lemma split_parts_no_sep :
  forall sep s part, In part (split sep s) -> ~ In sep part.
Proof.
  intros sep s. induction s as [|c s IH]; intros part H.
  - destruct H as [<-|[]]. intros [].
  - cbn [split] in H. destruct (N.eqb c sep) eqn:E.
    + destruct H as [<-|H]; [intros []|now apply IH].
    + apply N.eqb_neq in E. destruct (split sep s) as [|h t] eqn:S.
      * destruct H as [<-|[]]. intros [I|[]]. now apply E.
      * destruct H as [<-|H].
        -- intros [I|I]; [now apply E|]. revert I. apply IH. now left.
        -- apply IH. now right.
Qed.

Lemma name_no_slash : forall s, ~ In slash (name (parse s)).
Proof.
  intros s I. unfold name in I. apply In_last in I as [part [Hp I]].
  unfold parse in Hp. apply filter_In in Hp as [Hp _].
  exact (split_parts_no_sep _ _ _ Hp I).
Qed.

Lemma upload_suffix_shape :
  forall filename,
    exists t, upload_suffix filename = dot :: t /\ t <> [] /\ ~ In dot t /\ ~ In slash t.
Proof.
  intro filename. unfold upload_suffix.
  destruct (suffix_of_shape (name (parse filename))) as [->|[t [-> [H1 [H2 H3]]]]].
  - exists (u "wav"). split; [reflexivity|]. split; [discriminate|].
    split; intro I; vm_compute in I; decompose [or] I; try discriminate; assumption.
  - exists t. split; [reflexivity|]. split; [exact H1|]. split; [exact H2|].
    intro I. apply H3 in I. exact (name_no_slash _ I).
Qed.

Lemma upload_component :
  forall filename, component (u "upload" ++ upload_suffix filename).
Proof.
  intro filename. destruct (upload_suffix_shape filename) as [t [-> [_ [_ Hs]]]].
  split; [discriminate|]. split; [discriminate|].
  apply Forall_app. split.
  - repeat constructor; discriminate.
  - constructor; [discriminate|]. apply Forall_forall. intros c I E. subst c. now apply Hs.
Qed.

Lemma parse_component : forall s, component s -> parse s = [s].
Proof.
  intros s H. pose proof (joinpath_component [] s H) as J.
  unfold joinpath in J. now destruct (startswith [slash] s).
Qed.

(** The upload is always stored under a name whose normalization is
    [upload]. *)
Lemma slugify_upload :
  forall U filename,
    slugify_basename U (u "upload" ++ upload_suffix filename) (u "input") = u "upload".
Proof.
  intros U filename. unfold slugify_basename.
  rewrite (parse_component _ (upload_component filename)).
  destruct (upload_suffix_shape filename) as [t [-> [Ht [Hd _]]]].
  match goal with
  | |- context [stem ?p] => assert (S : stem p = u "upload")
  end.
  { unfold stem, name. cbn [last]. unfold stem_of.
    rewrite (rfind_app_last dot (u "upload") t Hd).
    rewrite length_app. cbn [length].
    destruct t as [|c t]; [contradiction|]. cbn [length].
    replace (Nat.ltb 0 6) with true by reflexivity.
    replace (Nat.ltb 6 (6 + S (S (length t)) - 1)) with true
      by (symmetry; apply Nat.ltb_lt; lia).
    cbn [andb]. rewrite firstn_app. cbn [length]. rewrite Nat.sub_diag. reflexivity. }
  rewrite S. reflexivity.
Qed.

Lemma upload_archive_name :
  forall U (d : path) filename,
    slugify_basename U (name (d ++ [u "upload" ++ upload_suffix filename])) (u "input")
    = u "upload".
Proof. intros U d filename. unfold name. rewrite last_last. apply slugify_upload. Qed.

(** X16: [gradio_workflow] always ends in one of two ways, never with a
    KeyError of the final indexing.  It raises [gr.Error]: for a missing or
    empty file name before anything is done, otherwise with the exception of
    [separate_core].  Or it returns its five outputs: then the model is a
    supported one, at least one of the four stems is a path, the last output
    is the path of the archive, which exists inside the work directory, and
    the timer's [_cleanup_later] removes it. *)
Theorem gradio_workflow_outputs :
  forall U audio_file model use_gpu w,
    exists r w',
      gradio_workflow U audio_file model use_gpu w = (Ok r, w') /\
      match r with
      | GrRaise GrNoFile => (audio_file = None \/ audio_file = Some []) /\ w' = w
      | GrRaise (GrFailed e) =>
          exists f, audio_file = Some f /\ f <> [] /\
                    separate_core U (parse f) model use_gpu w = (Raise e, w')
      | GrKeyError _ _ => False
      | GrOutputs vocals drums bass other zip workdir =>
          In model DEMUCS_MODELS /\
          (vocals <> None \/ drums <> None \/ bass <> None \/ other <> None) /\
          exists zip_path content,
            zip = to_str zip_path /\
            inside workdir zip_path /\
            lookup zip_path (w_fs w') = Some (ZipFile content) /\
            exists_ (w_fs (snd (gradio_cleanup_later workdir w'))) zip_path = false
      end.
Proof.
  intros U [[|c f]|] model gpu w.
  - exists (GrRaise GrNoFile), w. split; [reflexivity|]. split; [now right|reflexivity].
  - cbn [gradio_workflow].
    destruct (separate_core U (parse (c :: f)) model gpu w) as [[[[zp wd] sd]|e] w1] eqn:S.
    + pose proof (separate_core_ok_inv _ _ _ _ _ _ _ _ _ S)
        as [Hin [[r [Hr Hwd]] [Hfresh [Hzip [Hwav [es [Hsd Hz]]]]]]].
      destruct (find_stems U sd w1) as [[paths|e] w2] eqn:F.
      2:{ rewrite find_stems_value in F. discriminate F. }
      pose proof (find_stems_result_keys _ _ _ _ _ F) as K.
      assert (W2 : w_fs w2 = w_fs w1).
      { rewrite find_stems_value in F. injection F as _ <-. reflexivity. }
      assert (Some1 : exists key v, In key STEM_KEYS /\ dict_get key paths = Some (Some v)).
      { rewrite find_stems_value in F. injection F as <- _.
        exact (stems_some U _ Hwav). }
      eexists. exists w2. split.
      { erewrite try_except_ok; [reflexivity|].
        rewrite (bind_step _ _ _ _ _ _ _ S). cbn [fst snd].
        rewrite (bind_step _ _ _ _ _ _ _ F). reflexivity. }
      unfold stem_at.
      destruct (dict_get (u "vocals") paths) as [v|] eqn:Gv;
        [|exfalso; revert Gv; apply stem_keys_present; [exact K|simpl; tauto]].
      destruct (dict_get (u "drums") paths) as [d|] eqn:Gd;
        [|exfalso; revert Gd; apply stem_keys_present; [exact K|simpl; tauto]].
      destruct (dict_get (u "bass") paths) as [b|] eqn:Gb;
        [|exfalso; revert Gb; apply stem_keys_present; [exact K|simpl; tauto]].
      destruct (dict_get (u "other") paths) as [o|] eqn:Go;
        [|exfalso; revert Go; apply stem_keys_present; [exact K|simpl; tauto]].
      split; [exact Hin|]. split.
      { destruct Some1 as [key [x [Hk G]]].
        destruct Hk as [<-|[<-|[<-|[<-|[]]]]].
        - left. rewrite Gv in G. injection G as ->. discriminate.
        - right; left. rewrite Gd in G. injection G as ->. discriminate.
        - right; right; left. rewrite Gb in G. injection G as ->. discriminate.
        - right; right; right. rewrite Go in G. injection G as ->. discriminate. }
      exists zp, (Dir es).
      assert (I : inside wd zp).
      { rewrite Hzip. eexists. split; [|reflexivity]. discriminate. }
      split; [reflexivity|]. split; [exact I|]. split; [now rewrite W2|].
      unfold gradio_cleanup_later. apply safe_rmtree_clears; [|exact I].
      rewrite Hwd. intro E. apply app_eq_nil in E. destruct E as [_ E]. discriminate E.
    + eexists. exists w1. split.
      { rewrite (try_except_raise _ _ _ _ e w1); [reflexivity|].
        apply bind_raise. exact S. }
      exists (c :: f). split; [reflexivity|]. split; [discriminate|exact S].
  - exists (GrRaise GrNoFile), w. split; [reflexivity|]. split; [now left|reflexivity].
Qed.

Lemma safe_rmtree_ok : forall p w, safe_rmtree p w = (Ok tt, snd (safe_rmtree p w)).
Proof.
  intros p w. unfold safe_rmtree, try_except, shutil_rmtree.
  destruct (lookup p (w_fs w)) as [[d|r|es]|]; reflexivity.
Qed.

Lemma api_on_error_eq :
  forall d e w,
    api_on_error d None e w
    = (Ok (HTTPException (match e with ValueError _ => 400%Z | _ => 500%Z end) e),
       snd (safe_rmtree d w)).
Proof.
  intros d e w. unfold api_on_error.
  rewrite (bind_step _ _ _ _ _ _ _ (safe_rmtree_ok d w)). reflexivity.
Qed.

(** [api_separate], step by step. *)
Lemma api_separate_steps :
  forall U filename content model use_gpu w,
    api_separate U filename content model use_gpu w =
    match tempfile_mkdtemp (u "api_in_") w with
    | (Raise e, w1) => (Raise e, w1)
    | (Ok tmp_in_dir, w1) =>
        let tmp_in := joinpath tmp_in_dir (u "upload" ++ upload_suffix filename) in
        let failed e w' :=
          (Ok (HTTPException (match e with ValueError _ => 400%Z | _ => 500%Z end) e, None),
           snd (safe_rmtree tmp_in_dir w')) in
        match path_write_bytes tmp_in content w1 with
        | (Raise e, w2) => failed e w2
        | (Ok _, w2) =>
            match separate_core U tmp_in model use_gpu w2 with
            | (Raise e, w3) => failed e w3
            | (Ok (zip_path, workdir, _), w3) =>
                (Ok (FileResponse (to_str zip_path) (u "application/zip")
                       (slugify_basename U filename (u "input") ++ u "_" ++ model
                          ++ u "_stems.zip"),
                     Some (workdir, tmp_in_dir)), w3)
            end
        end
    end.
Proof.
  intros U filename content model gpu w.
  unfold api_separate. fold (upload_suffix filename).
  unfold bind at 1.
  destruct (tempfile_mkdtemp (u "api_in_") w) as [[d|e] w1]; [|reflexivity].
  cbv zeta. unfold try_except.
  unfold bind at 1.
  destruct (path_write_bytes _ content w1) as [[[]|e] w2].
  - unfold bind at 1.
    destruct (separate_core U _ model gpu w2) as [[[[zp wd] sd]|e] w3].
    + reflexivity.
    + unfold bind. rewrite api_on_error_eq. reflexivity.
  - unfold bind. rewrite api_on_error_eq. reflexivity.
Qed.


Lemma safe_rmtree_not_dir :
  forall p w, p <> [] -> is_dir (w_fs (snd (safe_rmtree p w))) p = false.
Proof.
  intros p w Hp. rewrite safe_rmtree_fs. unfold is_dir.
  destruct (lookup p (w_fs w)) as [[d|r|es]|] eqn:L; try now rewrite L.
  now rewrite lookup_remove.
Qed.

Lemma safe_rmtree_creates_nothing :
  forall p q w,
    lookup q (w_fs w) = None -> lookup q (w_fs (snd (safe_rmtree p w))) = None.
Proof.
  intros p q w H. rewrite safe_rmtree_fs.
  destruct (lookup p (w_fs w)) as [[d|r|es]|]; try exact H.
  now apply remove_creates_nothing.
Qed.

(** X18: after a successful [api_separate] the registered task [_cleanup] runs
    without error; the archive named in the response exists until then and
    is gone afterwards, with the whole work directory, and the upload
    directory is no longer a directory. *)
Theorem api_separate_cleanup :
  forall U filename content model use_gpu w path media_type fname workdir tmp_in_dir w1,
    api_separate U filename content model use_gpu w
      = (Ok (FileResponse path media_type fname, Some (workdir, tmp_in_dir)), w1) ->
    let w' := snd (api_cleanup workdir tmp_in_dir w1) in
    let zip_path := workdir ++ [u "upload.zip"] in
    fst (api_cleanup workdir tmp_in_dir w1) = Ok tt /\
    path = to_str zip_path /\
    exists_ (w_fs w1) zip_path = true /\
    exists_ (w_fs w') zip_path = false /\
    exists_ (w_fs w') workdir = false /\
    is_dir (w_fs w') tmp_in_dir = false.
Proof.
  intros U filename content model gpu w path mt fname wd d w1 H w' zp'.
  rewrite api_separate_steps in H.
  destruct (tempfile_mkdtemp (u "api_in_") w) as [[d0|e] w0] eqn:T; [|discriminate H].
  cbv zeta in H. rewrite (joinpath_component d0 _ (upload_component filename)) in H.
  destruct (path_write_bytes _ content w0) as [[[]|e] w2] eqn:Wr;
    [|cbv beta in H; discriminate H].
  destruct (separate_core U _ model gpu w2) as [[[[zp wd0] sd]|e] w3] eqn:S;
    [|cbv beta in H; discriminate H].
  injection H as <- _ _ <- <- <-.
  pose proof (separate_core_ok_inv _ _ _ _ _ _ _ _ _ S)
    as [Hin [[r [_ Hwd]] [_ [Hzip [_ [es [_ Hz]]]]]]].
  assert (Ez : zp = zp') by (rewrite Hzip, upload_archive_name; reflexivity).
  rewrite Ez in Hz. clear Ez. subst zp. rename zp' into zp.
  assert (Hd : d0 <> []).
  { destruct (mkdtemp_loop_ok _ _ _ _ _ _ T) as [r1 ->].
    intro E. apply app_eq_nil in E. destruct E as [_ E]. discriminate E. }
  assert (Hw : wd0 <> []).
  { rewrite Hwd. intro E. apply app_eq_nil in E. destruct E as [_ E]. discriminate E. }
  assert (I : inside wd0 zp).
  { eexists. split; [|reflexivity]. discriminate. }
  assert (E : api_cleanup wd0 d0 w3 = (Ok tt, snd (safe_rmtree d0 (snd (safe_rmtree wd0 w3))))).
  { unfold api_cleanup. rewrite (bind_step _ _ _ _ _ _ _ (safe_rmtree_ok wd0 w3)).
    apply safe_rmtree_ok. }
  subst w'. rewrite E. cbn [fst snd]. split; [reflexivity|].
  split; [rewrite upload_archive_name; reflexivity|].
  split; [unfold exists_; now rewrite Hz|].
  assert (Z1 : lookup zp (w_fs (snd (safe_rmtree wd0 w3))) = None).
  { pose proof (safe_rmtree_clears wd0 zp w3 Hw I) as C. unfold exists_ in C.
    destruct (lookup zp (w_fs (snd (safe_rmtree wd0 w3))));
      [discriminate C|reflexivity]. }
  assert (W1 : lookup wd0 (w_fs (snd (safe_rmtree wd0 w3))) = None).
  { rewrite safe_rmtree_fs.
    assert (D : is_dir (w_fs w3) wd0 = true).
    { destruct I as [rest [Hr Hq]]. rewrite Hq in Hz.
      exact (lookup_prefix_dir _ _ _ _ Hz Hr). }
    unfold is_dir in D.
    destruct (lookup wd0 (w_fs w3)) as [[x|x|x]|]; try discriminate D.
    now apply lookup_remove. }
  split; [unfold exists_; now rewrite (safe_rmtree_creates_nothing d0 zp _ Z1)|].
  split; [unfold exists_; now rewrite (safe_rmtree_creates_nothing d0 wd0 _ W1)|].
  now apply safe_rmtree_not_dir.
Qed.






Lemma api_separate_cleanup_witness :
  let w1 := snd (api_separate Unicode.latin1_only (u "My Song.mp3") [7%N] (u "htdemucs")
                   false backend_world) in
  api_separate Unicode.latin1_only (u "My Song.mp3") [7%N] (u "htdemucs") false backend_world
  = (Ok (FileResponse (u "/tmp/demucs_work_def/upload.zip") (u "application/zip")
           (u "my-song_htdemucs_stems.zip"),
         Some ([u "tmp"; u "demucs_work_def"], [u "tmp"; u "api_in_abc"])), w1) /\
  exists_
    (w_fs (snd (api_cleanup [u "tmp"; u "demucs_work_def"] [u "tmp"; u "api_in_abc"] w1)))
    [u "tmp"; u "demucs_work_def"; u "upload.zip"] = false.
Proof.
  intro w1.
  assert (H : api_separate Unicode.latin1_only (u "My Song.mp3") [7%N] (u "htdemucs") false
                backend_world
              = (Ok (FileResponse (u "/tmp/demucs_work_def/upload.zip") (u "application/zip")
                       (u "my-song_htdemucs_stems.zip"),
                     Some ([u "tmp"; u "demucs_work_def"], [u "tmp"; u "api_in_abc"])), w1))
    by (vm_compute; reflexivity).
  split; [exact H|].
  exact (proj1 (proj2 (proj2 (proj2
           (api_separate_cleanup _ _ _ _ _ _ _ _ _ _ _ _ H))))).
Defined.

